(** * Glass Box LCA engine: Formal Concept Analysis and truth verification

    A shallow embedding of [lca/lca_engine.py] and [lca/truth_verifier.py].

    Python [set]/[frozenset] of [str] values are [gset string], the lookup
    dictionaries of [FormalContext] are [gmap string (gset string)], lists are
    lists.  Iterating over a Python set visits the elements in an unspecified
    order; the embedding iterates over [elements], which is one such order.
    Python exceptions are the [Raise] outcome of the [py] monad; [while] loops
    run on fuel and report [OutOfFuel] when it is used up.  The quotient of
    two Python ints is the exact rational in [Q].

    The embedding covers [FormalContext], [NextClosureAlgorithm], the covering
    graph, top, bottom, density, irreducibles and stability index of
    [ConceptLattice], [text_to_context], [TruthVerifier] and
    [HallucinationDetector].  The Betti numbers, and the entries of the
    result dictionaries that only report metrics, are left out. *)

From stdpp Require Import gmap strings pretty list fin_maps fin_sets sorting.
From Stdlib Require Import QArith OrderedTypeEx.

#[local] Set Warnings "-clear-no-such-hyp".
Local Open Scope string_scope.

(** ** Outcomes of Python code *)

Inductive exn : Set :=
  | ValueError
  | IndexError
  | AttributeError
  | ZeroDivisionError.

Inductive py (A : Type) : Type :=
  | Return (a : A)
  | Raise (e : exn)
  | OutOfFuel.
Arguments Return {A} a.
Arguments Raise {A} e.
Arguments OutOfFuel {A}.

#[global] Instance py_ret : MRet py := λ A a, Return a.
#[global] Instance py_bind : MBind py := λ A B f m,
  match m with
  | Return a => f a
  | Raise e => Raise e
  | OutOfFuel => OutOfFuel
  end.

(** ** lca_engine.py: FormalConcept *)

Record FormalConcept : Type := mkConcept {
  extent : gset string;
  intent : gset string
}.

#[global] Instance FormalConcept_eq_dec : EqDecision FormalConcept.
Proof. solve_decision. Defined.

(** ** lca_engine.py: FormalContext *)

Record FormalContext : Type := mkContext {
  objects : gset string;
  attributes : gset string;
  incidence : gset (string * string);
  _obj_attrs : gmap string (gset string);
  _attr_objs : gmap string (gset string)
}.

(** [for k in keys: table[k] = set()] *)
Definition empty_table (keys : gset string) : gmap string (gset string) :=
  foldl (λ table k, <[k := ∅]> table) ∅ (elements keys).

(** The body of the loop over [incidence] in [FormalContext.__init__]. *)
Definition add_pair (objs attrs : gset string)
    (tables : gmap string (gset string) * gmap string (gset string))
    (p : string * string) : gmap string (gset string) * gmap string (gset string) :=
  let '(obj, attr) := p in
  if decide (obj ∈ objs ∧ attr ∈ attrs)
  then (alter (λ s, s ∪ {[attr]}) obj tables.1,
        alter (λ s, s ∪ {[obj]}) attr tables.2)
  else tables.

(** [FormalContext.__init__] *)
Definition FormalContext_init (objs attrs : gset string)
    (inc : gset (string * string)) : FormalContext :=
  let tables :=
    foldl (add_pair objs attrs) (empty_table objs, empty_table attrs) (elements inc) in
  {| objects := objs;
     attributes := attrs;
     incidence := inc;
     _obj_attrs := tables.1;
     _attr_objs := tables.2 |}.

(** [FormalContext.get_attributes]: [self._obj_attrs.get(obj, set())] *)
Definition get_attributes (ctx : FormalContext) (obj : string) : gset string :=
  default ∅ (_obj_attrs ctx !! obj).

(** [FormalContext.get_objects]: [self._attr_objs.get(attr, set())] *)
Definition get_objects (ctx : FormalContext) (attr : string) : gset string :=
  default ∅ (_attr_objs ctx !! attr).

(** [FormalContext.derive_extent] *)
Definition derive_extent (ctx : FormalContext) (attrs : gset string) : gset string :=
  match elements attrs with
  | [] => objects ctx
  | first :: _ =>
      foldl (λ result attr, result ∩ default ∅ (_attr_objs ctx !! attr))
            (default ∅ (_attr_objs ctx !! first))
            (elements attrs)
  end.

(** [FormalContext.derive_intent] *)
Definition derive_intent (ctx : FormalContext) (objs : gset string) : gset string :=
  match elements objs with
  | [] => attributes ctx
  | first :: _ =>
      foldl (λ result obj, result ∩ default ∅ (_obj_attrs ctx !! obj))
            (default ∅ (_obj_attrs ctx !! first))
            (elements objs)
  end.

(** [FormalContext.closure] *)
Definition closure (ctx : FormalContext) (attrs : gset string) : gset string :=
  let extent := derive_extent ctx attrs in
  derive_intent ctx extent.

(** [FormalContext.is_closed] *)
Definition is_closed (ctx : FormalContext) (attrs : gset string) : bool :=
  bool_decide (closure ctx attrs = attrs).

(** ** lca_engine.py: NextClosureAlgorithm *)

(** The order of Python's [str] comparison: lexicographic on code points,
    which is the lexicographic order of the UTF-8 bytes. *)
Definition str_le (a b : string) : Prop := String.leb a b = true.

#[global] Instance str_le_dec (a b : string) : Decision (str_le a b).
Proof. unfold str_le. apply _. Defined.

(** [sorted(s)] for a set of strings *)
Definition sorted (s : gset string) : list string :=
  merge_sort str_le (elements s).

Record NextClosureAlgorithm : Type := mkAlgo {
  context : FormalContext;
  attributes_list : list string
}.

(** [NextClosureAlgorithm.__init__] *)
Definition NextClosureAlgorithm_init (ctx : FormalContext) : NextClosureAlgorithm :=
  {| context := ctx; attributes_list := sorted (attributes ctx) |}.

(** [list.index(m)]: the position of the first occurrence, [ValueError] when
    there is none. *)
Fixpoint list_index (l : list string) (m : string) : py nat :=
  match l with
  | [] => Raise ValueError
  | x :: l' =>
      if decide (x = m) then Return 0%nat
      else idx ← list_index l' m; Return (S idx)
  end.

(** The loop of [next_closure] that computes [valid]; [ms] is what is left to
    visit of [closure]. *)
Fixpoint check_valid (alist : list string) (candidate : gset string) (i : nat)
    (ms : list string) : py bool :=
  match ms with
  | [] => Return true
  | m :: rest =>
      if decide (m ∈ candidate) then check_valid alist candidate i rest
      else
        m_idx ← list_index alist m;
        if decide (m_idx ≤ i)%nat then Return false
        else check_valid alist candidate i rest
  end.

(** The [for i in range(len(self.attributes_list) - 1, -1, -1)] loop of
    [next_closure], entered with [k] indices left: the next index is [k - 1]. *)
Fixpoint next_closure_from (self : NextClosureAlgorithm) (k : nat)
    (current : gset string) : py (option (gset string)) :=
  match k with
  | O => Return None
  | S i =>
      match attributes_list self !! i with
      | None => Raise IndexError
      | Some attr =>
          if decide (attr ∉ current) then
            let candidate := current ∪ {[attr]} in
            let closure := closure (context self) candidate in
            valid ← check_valid (attributes_list self) candidate i (elements closure);
            if (valid : bool) then Return (Some closure)
            else next_closure_from self i current
          else
            next_closure_from self i (current ∖ {[attr]})
      end
  end.

(** [NextClosureAlgorithm.next_closure] *)
Definition next_closure (self : NextClosureAlgorithm) (current : gset string)
    : py (option (gset string)) :=
  next_closure_from self (length (attributes_list self)) current.

(** The [while current is not None] loop of [generate_all_concepts]. *)
Fixpoint generate_loop (self : NextClosureAlgorithm) (fuel : nat)
    (current : option (gset string)) (concepts : list FormalConcept)
    : py (list FormalConcept) :=
  match current with
  | None => Return concepts
  | Some cur =>
      match fuel with
      | O => OutOfFuel
      | S fuel' =>
          let extent := derive_extent (context self) cur in
          let intent := cur in
          let concept := {| extent := extent; intent := intent |} in
          next ← next_closure self cur;
          generate_loop self fuel' next (concepts ++ [concept])
      end
  end.

(** [NextClosureAlgorithm.generate_all_concepts].  The loop gets one unit of
    fuel per subset of the attributes; [generate_all_concepts_returns] shows
    that this is always enough. *)
Definition generate_all_concepts (self : NextClosureAlgorithm) : py (list FormalConcept) :=
  let current := closure (context self) ∅ in
  generate_loop self (2 ^ size (attributes (context self))) (Some current) [].

(** config.py *)
Definition LCA_STABILITY_SAMPLES : Z := 100.
Definition LCA_MAX_CONCEPTS : Z := 10000.

(** ** lca_engine.py: ConceptLattice *)

(** What the engine uses of [networkx.DiGraph]: nodes and edges in insertion
    order, without repetition. *)
Record DiGraph : Type := mkGraph {
  nodes : list FormalConcept;
  edges : list (FormalConcept * FormalConcept)
}.

Definition empty_graph : DiGraph := {| nodes := []; edges := [] |}.

Definition add_node (g : DiGraph) (n : FormalConcept) : DiGraph :=
  if decide (n ∈ nodes g) then g
  else {| nodes := nodes g ++ [n]; edges := edges g |}.

Definition add_edge (g : DiGraph) (u v : FormalConcept) : DiGraph :=
  let g' := add_node (add_node g u) v in
  if decide ((u, v) ∈ edges g') then g'
  else {| nodes := nodes g'; edges := edges g' ++ [(u, v)] |}.

Definition successors (g : DiGraph) (n : FormalConcept) : list FormalConcept :=
  (filter (λ e, e.1 = n) (edges g)).*2.

Record ConceptLattice : Type := mkLattice {
  concepts : list FormalConcept;
  graph : DiGraph
}.

(** The innermost loop of [ConceptLattice.__init__], which computes
    [is_direct]; [a > b] on frozensets is the proper superset test. *)
Fixpoint is_direct (c1 c2 : FormalConcept) (cs : list FormalConcept) : bool :=
  match cs with
  | [] => true
  | c3 :: rest =>
      if decide (c3 ≠ c1 ∧ c3 ≠ c2) then
        if decide (intent c3 ⊂ intent c1 ∧ intent c2 ⊂ intent c3) then false
        else is_direct c1 c2 rest
      else is_direct c1 c2 rest
  end.

(** The body of the two outer loops of [ConceptLattice.__init__]. *)
Definition cover_step (cs : list FormalConcept) (c1 : FormalConcept)
    (g : DiGraph) (c2 : FormalConcept) : DiGraph :=
  if decide (c1 ≠ c2) then
    if decide (intent c2 ⊂ intent c1) then
      if is_direct c1 c2 cs then add_edge g c1 c2 else g
    else g
  else g.

(** [ConceptLattice.__init__] *)
Definition ConceptLattice_init (cs : list FormalConcept) : ConceptLattice :=
  let g0 := foldl add_node empty_graph cs in
  let g := foldl (λ g c1, foldl (cover_step cs c1) g cs) g0 cs in
  {| concepts := cs; graph := g |}.

(** [ConceptLattice.get_top]; Python's [None] is [None]. *)
Fixpoint get_top_loop (cs : list FormalConcept) : option FormalConcept :=
  match cs with
  | [] => None
  | concept :: rest =>
      if decide (size (intent concept) = 0%nat) then Some concept
      else get_top_loop rest
  end.

Definition get_top (self : ConceptLattice) : option FormalConcept :=
  get_top_loop (concepts self).

(** [max(...)] of a sequence of lengths: [ValueError] on the empty sequence. *)
Definition py_max (l : list nat) : py nat :=
  match l with
  | [] => Raise ValueError
  | x :: l' => Return (foldl Nat.max x l')
  end.

Fixpoint get_bottom_loop (max_intent : nat) (cs : list FormalConcept)
    : option FormalConcept :=
  match cs with
  | [] => None
  | concept :: rest =>
      if decide (size (intent concept) = max_intent) then Some concept
      else get_bottom_loop max_intent rest
  end.

(** [ConceptLattice.get_bottom] *)
Definition get_bottom (self : ConceptLattice) : py (option FormalConcept) :=
  max_intent ← py_max (map (λ c, size (intent c)) (concepts self));
  Return (get_bottom_loop max_intent (concepts self)).

(** [DiGraph.number_of_edges] *)
Definition number_of_edges (g : DiGraph) : nat := length (edges g).

(** [DiGraph.predecessors] *)
Definition predecessors (g : DiGraph) (n : FormalConcept) : list FormalConcept :=
  (filter (λ e, e.2 = n) (edges g)).*1.

(** [ConceptLattice.calculate_density] *)
Definition calculate_density (self : ConceptLattice) : Q :=
  let num_concepts := length (concepts self) in
  if decide (num_concepts = 0%nat) then 0%Q
  else
    let num_edges := number_of_edges (graph self) in
    (inject_Z (Z.of_nat num_edges) / inject_Z (Z.of_nat num_concepts ^ 2))%Q.

(** The dictionary that [find_irreducibles] returns. *)
Record Irreducibles : Type := mkIrreducibles {
  meet_irreducible : list FormalConcept;
  join_irreducible : list FormalConcept
}.

(** [ConceptLattice.find_irreducibles] *)
Definition find_irreducibles (self : ConceptLattice) : Irreducibles :=
  foldl (λ acc concept,
           let predecessors := predecessors (graph self) concept in
           let join_irreducibles :=
             if decide (length predecessors = 1%nat)
             then (join_irreducible acc ++ [concept])%list else join_irreducible acc in
           let successors := successors (graph self) concept in
           let meet_irreducibles :=
             if decide (length successors = 1%nat)
             then (meet_irreducible acc ++ [concept])%list else meet_irreducible acc in
           {| meet_irreducible := meet_irreducibles;
              join_irreducible := join_irreducibles |})
        {| meet_irreducible := []; join_irreducible := [] |}
        (concepts self).

(** [calculate_stability_index] draws from Python's global random generator.
    The generator is a state [G] with the two operations the code calls:
    [random.randint(a, b)] and [random.sample(population, k)]. *)
Section Stability.
Context {G : Type}.
Variable randint : Z → Z → G → Z * G.
Variable sample : list string → Z → G → list string * G.

(** The [for _ in range(samples)] loop with [n] rounds left. *)
Fixpoint stability_loop (n : nat) (extent_list : list string)
    (preserved_count : Z) (g : G) : Z * G :=
  match n with
  | O => (preserved_count, g)
  | S n' =>
      let '(sample_size, g1) := randint 1 (Z.of_nat (length extent_list)) g in
      let '(subset, g2) := sample extent_list sample_size g1 in
      let subset : gset string := list_to_set subset in
      stability_loop n' extent_list (preserved_count + 1) g2
  end.

(** [ConceptLattice.calculate_stability_index]; the quotient of two ints
    is the exact rational. *)
Definition calculate_stability_index (self : ConceptLattice)
    (concept : FormalConcept) (samples : Z) (g : G) : py Q * G :=
  if decide (size (extent concept) = 0%nat) then (Return 1%Q, g)
  else
    let extent_list := elements (extent concept) in
    let '(preserved_count, g') :=
      stability_loop (Z.to_nat samples) extent_list 0 g in
    if decide (samples = 0%Z) then (Raise ZeroDivisionError, g')
    else (Return (inject_Z preserved_count / inject_Z samples)%Q, g').

(** The stability index as the docstring and the specification describe
    it: the share of the trials whose subset still derives the concept's
    intent in [ctx]. *)
Fixpoint documented_stability_loop (ctx : FormalContext) (concept : FormalConcept)
    (n : nat) (extent_list : list string) (preserved_count : Z) (g : G) : Z * G :=
  match n with
  | O => (preserved_count, g)
  | S n' =>
      let '(sample_size, g1) := randint 1 (Z.of_nat (length extent_list)) g in
      let '(subset, g2) := sample extent_list sample_size g1 in
      let subset : gset string := list_to_set subset in
      let preserved_count :=
        if decide (derive_intent ctx subset = intent concept)
        then (preserved_count + 1)%Z else preserved_count in
      documented_stability_loop ctx concept n' extent_list preserved_count g2
  end.

Definition documented_stability_index (ctx : FormalContext)
    (concept : FormalConcept) (samples : Z) (g : G) : py Q * G :=
  if decide (size (extent concept) = 0%nat) then (Return 1%Q, g)
  else
    let extent_list := elements (extent concept) in
    let '(preserved_count, g') :=
      documented_stability_loop ctx concept (Z.to_nat samples) extent_list 0 g in
    if decide (samples = 0%Z) then (Raise ZeroDivisionError, g')
    else (Return (inject_Z preserved_count / inject_Z samples)%Q, g').
End Stability.

(** ** lca_engine.py: text_to_context

    Text is modelled as ASCII: [\w] is a letter, a digit or the underscore,
    [strip] removes ASCII white space and [lower] maps [A-Z] to [a-z]. *)

Definition is_sentence_end (c : Ascii.ascii) : bool :=
  bool_decide (c ∈ [Ascii.ascii_of_nat 46; Ascii.ascii_of_nat 33; Ascii.ascii_of_nat 63]).

Definition is_word_char (c : Ascii.ascii) : bool :=
  let n := Ascii.N_of_ascii c in
  ((48 <=? n) && (n <=? 57) || (65 <=? n) && (n <=? 90)
   || (97 <=? n) && (n <=? 122) || (n =? 95))%N.

Definition is_whitespace (c : Ascii.ascii) : bool :=
  let n := Ascii.N_of_ascii c in
  ((9 <=? n) && (n <=? 13) || (28 <=? n) && (n <=? 32))%N.

Definition lower_char (c : Ascii.ascii) : Ascii.ascii :=
  let n := Ascii.N_of_ascii c in
  if ((65 <=? n) && (n <=? 90))%N then Ascii.ascii_of_N (n + 32) else c.

(** [re.split(r'[.!?]+', text)]: [cur] is the piece being read, reversed, and
    [in_sep] tells that the previous character was a separator. *)
Fixpoint re_split (cs : list Ascii.ascii) (cur : list Ascii.ascii) (in_sep : bool)
    : list (list Ascii.ascii) :=
  match cs with
  | [] => [rev cur]
  | c :: rest =>
      if is_sentence_end c then
        if in_sep then re_split rest cur true
        else rev cur :: re_split rest [] true
      else re_split rest (c :: cur) false
  end.

Fixpoint lstrip (cs : list Ascii.ascii) : list Ascii.ascii :=
  match cs with
  | [] => []
  | c :: rest => if is_whitespace c then lstrip rest else cs
  end.

(** [s.strip()] *)
Definition strip (cs : list Ascii.ascii) : list Ascii.ascii :=
  rev (lstrip (rev (lstrip cs))).

(** [re.findall(r'\b\w+\b', s)]: the maximal runs of word characters. *)
Fixpoint findall_words (cs : list Ascii.ascii) (cur : list Ascii.ascii)
    : list string :=
  match cs with
  | [] => match cur with [] => [] | _ => [String.string_of_list_ascii (rev cur)] end
  | c :: rest =>
      if is_word_char c then findall_words rest (c :: cur)
      else match cur with
           | [] => findall_words rest []
           | _ => String.string_of_list_ascii (rev cur) :: findall_words rest []
           end
  end.

(** The loop over [enumerate(sentences)]: the dictionary [sentence_words] in
    insertion order. *)
Definition sentence_words_of (sentences : list (list Ascii.ascii))
    : list (string * gset string) :=
  imap (λ i sentence,
          let words := findall_words (map lower_char sentence) [] in
          ("sent_" +:+ pretty i, list_to_set words))
       sentences.

(** [text_to_context] *)
Definition text_to_context (text : string) : FormalContext :=
  let sentences := re_split (String.list_ascii_of_string text) [] false in
  let sentences := filter (λ s, s ≠ []) (map strip sentences) in
  let sentence_words := sentence_words_of sentences in
  let all_words : gset string := ⋃ (sentence_words.*2) in
  let incidence : gset (string * string) :=
    foldl (λ inc sw,
             foldl (λ inc word, inc ∪ {[ (sw.1, word) ]}) inc (elements sw.2))
          ∅ sentence_words in
  let objects : gset string := list_to_set (sentence_words.*1) in
  let attributes := all_words in
  FormalContext_init objects attributes incidence.

(** ** truth_verifier.py: TruthVerifier *)

Record TruthVerifier : Type := mkVerifier {
  ground_truth_lattice : option ConceptLattice;
  answer_lattice : option ConceptLattice;
  ground_truth_context : option FormalContext;
  answer_context : option FormalContext
}.

(** [TruthVerifier.__init__] *)
Definition TruthVerifier_init : TruthVerifier :=
  {| ground_truth_lattice := None; answer_lattice := None;
     ground_truth_context := None; answer_context := None |}.

(** [" ".join(citations)] *)
Fixpoint join_space (l : list string) : string :=
  match l with
  | [] => ""
  | [s] => s
  | s :: rest => s +:+ " " +:+ join_space rest
  end.

(** [TruthVerifier.build_ground_truth_lattice]: the verifier after the call. *)
Definition build_ground_truth_lattice (self : TruthVerifier) (citations : list string)
    : py TruthVerifier :=
  let combined_text := join_space citations in
  let ctx := text_to_context combined_text in
  let algo := NextClosureAlgorithm_init ctx in
  concepts ← generate_all_concepts algo;
  Return {| ground_truth_lattice := Some (ConceptLattice_init concepts);
            answer_lattice := answer_lattice self;
            ground_truth_context := Some ctx;
            answer_context := answer_context self |}.

(** [TruthVerifier.build_answer_lattice]: the verifier after the call. *)
Definition build_answer_lattice (self : TruthVerifier) (answer_text : string)
    : py TruthVerifier :=
  let ctx := text_to_context answer_text in
  let algo := NextClosureAlgorithm_init ctx in
  concepts ← generate_all_concepts algo;
  Return {| ground_truth_lattice := ground_truth_lattice self;
            answer_lattice := Some (ConceptLattice_init concepts);
            ground_truth_context := ground_truth_context self;
            answer_context := Some ctx |}.

(** The two inner loops of [extract_relationships] over [child_attrs]. *)
Definition add_pairs (child_attrs : gset string)
    (relationships : gset (string * string)) : gset (string * string) :=
  foldl (λ rel attr1,
           foldl (λ rel attr2,
                    if decide (attr1 ≠ attr2) then rel ∪ {[ (attr1, attr2) ]} else rel)
                 rel (elements child_attrs))
        relationships (elements child_attrs).

(** [TruthVerifier.extract_relationships] *)
Definition extract_relationships (lattice : ConceptLattice) : gset (string * string) :=
  foldl (λ rel concept,
           foldl (λ rel parent, add_pairs (intent concept) rel)
                 rel (successors (graph lattice) concept))
        ∅ (concepts lattice).

(** The dictionary that [check_topological_isomorphism] returns; the count
    entries are absent from the error dictionary. *)
Record IsoResult : Type := mkIso {
  is_valid : bool;
  error : option string;
  hallucinated_edges : list (string * string);
  confidence : Q;
  ground_truth_concepts : option nat;
  answer_concepts : option nat;
  ground_truth_relationships : option nat;
  answer_relationships : option nat
}.

(** The loop of [check_topological_isomorphism] that fills [hallucinated];
    [self.ground_truth_context.attributes] raises [AttributeError] when the
    context is [None]. *)
Fixpoint hallucinated_loop (gt_relationships : gset (string * string))
    (gt_context : option FormalContext) (ans_relationships : list (string * string))
    (hallucinated : list (string * string)) : py (list (string * string)) :=
  match ans_relationships with
  | [] => Return hallucinated
  | (attr1, attr2) :: rest =>
      if decide ((attr1, attr2) ∉ gt_relationships) then
        match gt_context with
        | None => Raise AttributeError
        | Some ctx =>
            let gt_attrs := attributes ctx in
            if decide (attr1 ∈ gt_attrs ∧ attr2 ∈ gt_attrs)
            then hallucinated_loop gt_relationships gt_context rest
                                   (hallucinated ++ [(attr1, attr2)])
            else hallucinated_loop gt_relationships gt_context rest hallucinated
        end
      else hallucinated_loop gt_relationships gt_context rest hallucinated
  end.

(** [TruthVerifier.check_topological_isomorphism] *)
Definition check_topological_isomorphism (self : TruthVerifier) : py IsoResult :=
  match ground_truth_lattice self, answer_lattice self with
  | Some gt_lattice, Some ans_lattice =>
      let gt_relationships := extract_relationships gt_lattice in
      let ans_relationships := extract_relationships ans_lattice in
      hallucinated ← hallucinated_loop gt_relationships (ground_truth_context self)
                                       (elements ans_relationships) [];
      let confidence :=
        if decide (size ans_relationships = 0%nat) then 1%Q
        else
          let valid_count :=
            (Z.of_nat (size ans_relationships) - Z.of_nat (length hallucinated))%Z in
          (inject_Z valid_count / inject_Z (Z.of_nat (size ans_relationships)))%Q in
      let is_valid := bool_decide (length hallucinated = 0%nat) in
      Return {| is_valid := is_valid;
                error := None;
                hallucinated_edges := hallucinated;
                confidence := confidence;
                ground_truth_concepts := Some (length (concepts gt_lattice));
                answer_concepts := Some (length (concepts ans_lattice));
                ground_truth_relationships := Some (size gt_relationships);
                answer_relationships := Some (size ans_relationships) |}
  | _, _ =>
      Return {| is_valid := false;
                error := Some "Lattices not built";
                hallucinated_edges := [];
                confidence := 0%Q;
                ground_truth_concepts := None;
                answer_concepts := None;
                ground_truth_relationships := None;
                answer_relationships := None |}
  end.

(** [TruthVerifier.verify]: the verifier after the call and the result of
    the isomorphism check.  The density, Betti and irreducible entries that
    [verify] adds to the dictionary are left out. *)
Definition verify (self : TruthVerifier) (citations : list string) (answer : string)
    : py (TruthVerifier * IsoResult) :=
  self ← build_ground_truth_lattice self citations;
  self ← build_answer_lattice self answer;
  result ← check_topological_isomorphism self;
  Return (self, result).

(** ** truth_verifier.py: HallucinationDetector *)

Record Finding : Type := mkFinding {
  type_ : string;
  description : string;
  severity : string
}.

#[global] Instance Finding_eq_dec : EqDecision Finding.
Proof. solve_decision. Defined.

Record Report : Type := mkReport {
  status : string;
  report_confidence : Q;
  hallucinations : list Finding
}.

(** [HallucinationDetector.detect], without the [warnings] entry. *)
Definition detect (sources : list string) (generated_text : string) : py Report :=
  '(_, result) ← verify TruthVerifier_init sources generated_text;
  let hallucinations :=
    if negb (is_valid result) then
      map (λ p, {| type_ := "topological_hallucination";
                   description :=
                     "Invented relationship: '" +:+ p.1 +:+ "' -> '" +:+ p.2 +:+ "'";
                   severity := "HIGH" |})
          (hallucinated_edges result)
    else [] in
  Return {| status := if is_valid result then "VALID" else "HALLUCINATION_DETECTED";
            report_confidence := confidence result;
            hallucinations := hallucinations |}.

(** ** Fixtures *)

(** The fixture of [lca_engine.py]'s self test and of [test_glassbox.py]. *)
Definition animals_objects : gset string := {[ "dog"; "cat"; "bird"; "fish" ]}.
Definition animals_attributes : gset string := {[ "legs"; "fur"; "flies"; "swims" ]}.
Definition animals_incidence : gset (string * string) :=
  {[ ("dog", "legs"); ("dog", "fur"); ("cat", "legs"); ("cat", "fur");
     ("bird", "legs"); ("bird", "flies"); ("fish", "swims") ]}.
Definition animals : FormalContext :=
  FormalContext_init animals_objects animals_attributes animals_incidence.

(** The concept of the animals with legs. *)
Definition with_legs : FormalConcept :=
  {| extent := {[ "dog"; "cat"; "bird" ]}; intent := {[ "legs" ]} |}.

(** The concept of the furry animals. *)
Definition with_fur : FormalConcept :=
  {| extent := {[ "dog"; "cat" ]}; intent := {[ "fur"; "legs" ]} |}.

(** A context with one object that has the one attribute: the most general
    concept has a non-empty intent. *)
Definition sky_context : FormalContext :=
  FormalContext_init {[ "sent_0" ]} {[ "sky" ]} {[ ("sent_0", "sky") ]}.

Definition sky_concept : FormalConcept :=
  {| extent := {[ "sent_0" ]}; intent := {[ "sky" ]} |}.

(** The names ["0"], ["1"], ... of [n] objects or attributes. *)
Definition names (n : nat) : list string := map (λ i : nat, pretty i) (seq 0 n).

(** The context in which object [i] has every attribute but attribute [i]:
    every set of attributes is closed in it. *)
Definition boolean_context (n : nat) : FormalContext :=
  FormalContext_init (list_to_set (names n)) (list_to_set (names n))
    (list_to_set (filter (λ p, p.1 ≠ p.2) (cprod (names n) (names n)))).

(** A random generator that always draws the smallest size and the first
    elements of the population. *)
Definition first_randint (a b : Z) (g : unit) : Z * unit := (a, g).
Definition first_sample (population : list string) (k : Z) (g : unit)
    : list string * unit := (take (Z.to_nat k) population, g).

(** * Vocabulary of the properties *)

(** Decides a closed proposition by evaluation. *)
Ltac by_evaluation := apply (bool_decide_unpack _); vm_compute; exact I.

(** The lookup tables of [FormalContext.__init__] after the pairs of [l] have
    been visited. *)
Definition tables_after (objs attrs : gset string) (l : list (string * string)) :=
  foldl (add_pair objs attrs) (empty_table objs, empty_table attrs) l.

(** A directed path of at least one edge in the covering graph. *)
Inductive path (g : DiGraph) : FormalConcept → FormalConcept → Prop :=
  | path_edge u v : (u, v) ∈ edges g → path g u v
  | path_step u v w : (u, v) ∈ edges g → path g v w → path g u w.

(** [c3] lies strictly between [c2] and [c1] in the order of the intents. *)
Definition separates (c1 c2 c3 : FormalConcept) : Prop :=
  intent c3 ⊂ intent c1 ∧ intent c2 ⊂ intent c3.

(** The attributes at the positions before [k] of the attribute order [l]. *)
Definition below (l : list string) (k : nat) : gset string :=
  list_to_set (take k l).

(** [A <_i B]: the sets agree before position [i] of [l], and the attribute
    at position [i] is in [B] and not in [A]. *)
Definition lectic_at (l : list string) (i : nat) (A B : gset string) : Prop :=
  ∃ m : string, l !! i = Some m ∧ (m ∉ A) ∧ m ∈ B ∧
       ∀ (j : nat) (m' : string),
         (j < i)%nat → l !! j = Some m' → (m' ∈ A ↔ m' ∈ B).

(** The lectic order on attribute sets, for the attribute order [l]. *)
Definition lectic_lt (l : list string) (A B : gset string) : Prop :=
  ∃ i, lectic_at l i A B.

(** The closure that [next_closure] tries at position [i] when started from
    [A]. *)
Definition oplus (ctx : FormalContext) (l : list string) (A : gset string)
    (i : nat) : gset string :=
  match l !! i with
  | Some m => closure ctx ((A ∩ below l i) ∪ {[m]})
  | None => ∅
  end.

(** A set of attributes read as a binary number, the first attribute of [l]
    being the most significant digit. *)
Fixpoint weight (l : list string) (A : gset string) : nat :=
  match l with
  | [] => 0
  | m :: l' => (if decide (m ∈ A) then 2 ^ length l' else 0) + weight l' A
  end.

(** The formal concepts of a context: pairs of a set of declared objects and
    a set of declared attributes each of which derives the other. *)
Definition is_formal_concept (ctx : FormalContext) (c : FormalConcept) : Prop :=
  extent c ⊆ objects ctx ∧ intent c ⊆ attributes ctx ∧
  derive_intent ctx (extent c) = intent c ∧
  derive_extent ctx (intent c) = extent c.

(** The strict order of Python's [str] comparison. *)
Definition str_lt (a b : string) : Prop := String.ltb a b = true.

(** The concept that [generate_all_concepts] emits for the closed set [I]. *)
Definition concept_of (ctx : FormalContext) (I : gset string) : FormalConcept :=
  {| extent := derive_extent ctx I; intent := I |}.

(** The lattice that [build_ground_truth_lattice] and [build_answer_lattice]
    build for a text. *)
Definition lattice_of_text (text : string) : py ConceptLattice :=
  concepts ← generate_all_concepts (NextClosureAlgorithm_init (text_to_context text));
  Return (ConceptLattice_init concepts).

(** The finding that [detect] reports for the flagged pair [(a, b)]. *)
Definition invented (a b : string) : Finding :=
  {| type_ := "topological_hallucination";
     description := "Invented relationship: '" +:+ a +:+ "' -> '" +:+ b +:+ "'";
     severity := "HIGH" |}.

(** The pairs that the loop of [check_topological_isomorphism] flags. *)
Definition flagged (gt_relationships : gset (string * string)) (gt_attrs : gset string)
    (p : string * string) : Prop :=
  (p ∉ gt_relationships) ∧ p.1 ∈ gt_attrs ∧ p.2 ∈ gt_attrs.

#[global] Instance flagged_dec gt_relationships gt_attrs p :
  Decision (flagged gt_relationships gt_attrs p).
Proof. unfold flagged. apply _. Defined.

(** All subsets of the attributes listed in [l]. *)
Fixpoint subsets (l : list string) : list (gset string) :=
  match l with
  | [] => [∅]
  | m :: l' => subsets l' ++ map (λ X, {[m]} ∪ X) (subsets l')
  end.

(** The intents that brute force finds: the closure of every subset of the
    declared attributes. *)
Definition brute_force_intents (ctx : FormalContext) : list (gset string) :=
  map (closure ctx) (subsets (elements (attributes ctx))).


(** What [networkx] keeps of a graph over the concepts [cs]: no node and no
    edge is stored twice, and every node is a concept of [cs]. *)
Definition graph_ok (cs : list FormalConcept) (g : DiGraph) : Prop :=
  NoDup (nodes g) ∧ NoDup (edges g) ∧ ∀ c, c ∈ nodes g → c ∈ cs.

(** The sentences that [text_to_context] keeps: the stripped, non-empty
    pieces of the text. *)
Definition sentences_of (text : string) : list (list Ascii.ascii) :=
  filter (λ s, s ≠ []) (map strip (re_split (String.list_ascii_of_string text) [] false)).


(** * Properties *)

Lemma foldl_empty_lookup (l : list string) (m : gmap string (gset string)) (k : string) :
  foldl (λ table k, <[k := ∅]> table) m l !! k
  = if decide (k ∈ l) then Some ∅ else m !! k.
Proof.
  revert m. induction l as [|x l IH]; intros m; simpl; [done|].
  rewrite IH. clear IH.
  destruct (decide (k ∈ l)) as [Hl|Hl], (decide (k ∈ x :: l)) as [Hc|Hc];
    try done.
  - set_solver.
  - destruct (decide (x = k)) as [->|Hne]; [by rewrite lookup_insert_eq|].
    set_solver.
  - rewrite lookup_insert_ne; [done|]. set_solver.
Qed.

Lemma empty_table_lookup (keys : gset string) (k : string) :
  empty_table keys !! k = if decide (k ∈ keys) then Some ∅ else None.
Proof.
  unfold empty_table. rewrite foldl_empty_lookup, lookup_empty.
  destruct (decide (k ∈ elements keys)) as [H|H], (decide (k ∈ keys)) as [H'|H'];
    try done; set_solver.
Qed.

Section Tables.
Variables objs attrs : gset string.

Lemma tables_after_spec (l : list (string * string)) :
  (∀ o, (tables_after objs attrs l).1 !! o
        = if decide (o ∈ objs)
          then Some (list_to_set (filter (λ a, a ∈ attrs ∧ (o, a) ∈ l)
                                         (elements attrs)))
          else None) ∧
  (∀ a, (tables_after objs attrs l).2 !! a
        = if decide (a ∈ attrs)
          then Some (list_to_set (filter (λ o, o ∈ objs ∧ (o, a) ∈ l)
                                         (elements objs)))
          else None).
Proof.
  induction l as [|p l IH] using rev_ind; [|destruct p as [obj attr]].
  - unfold tables_after; simpl. split; intros k; rewrite empty_table_lookup;
      destruct (decide _); try done; f_equal; apply set_eq; intros x;
      rewrite elem_of_list_to_set, list_elem_of_filter; set_solver.
  - destruct IH as [IH1 IH2]. unfold tables_after in *.
    rewrite foldl_snoc.
    remember (foldl (add_pair objs attrs) (empty_table objs, empty_table attrs) l)
      as t eqn:Ht. clear Ht. unfold add_pair.
    destruct (decide (obj ∈ objs ∧ attr ∈ attrs)) as [[Ho Ha]|Hn]; simpl.
    + split; intros k.
      * rewrite lookup_alter, !IH1.
        destruct (decide (obj = k)) as [->|Hk], (decide (k ∈ objs));
          simpl; try done; f_equal; apply set_eq; intros x;
          rewrite ?elem_of_union, !elem_of_list_to_set, !list_elem_of_filter,
            ?elem_of_elements, ?elem_of_app, ?elem_of_singleton,
            ?list_elem_of_singleton; naive_solver.
      * rewrite lookup_alter, !IH2.
        destruct (decide (attr = k)) as [->|Hk], (decide (k ∈ attrs));
          simpl; try done; f_equal; apply set_eq; intros x;
          rewrite ?elem_of_union, !elem_of_list_to_set, !list_elem_of_filter,
            ?elem_of_elements, ?elem_of_app, ?elem_of_singleton,
            ?list_elem_of_singleton; naive_solver.
    + split; intros k; [rewrite IH1 | rewrite IH2]; destruct (decide _); try done;
        f_equal; apply set_eq; intros x;
        rewrite !elem_of_list_to_set, !list_elem_of_filter, elem_of_app,
          list_elem_of_singleton, elem_of_elements; naive_solver.
Qed.
End Tables.

Lemma foldl_inter_elem_of {A} (f : A → gset string) (l : list A) (r : gset string) (x : string) :
  x ∈ foldl (λ result a, result ∩ f a) r l ↔ x ∈ r ∧ ∀ a, a ∈ l → x ∈ f a.
Proof.
  revert r. induction l as [|a l IH]; intros r; simpl.
  - split; [intros ?; split; [done|] | tauto]. intros a Ha. by apply elem_of_nil in Ha.
  - rewrite IH, elem_of_intersection. split.
    + intros [[Hr Ha] Hl]. split; [done|]. intros b [->|Hb]%elem_of_cons; auto.
    + intros [Hr Hl]. split; [split; [done|]|]; intros; apply Hl; set_solver.
Qed.

Section Derivation.
Variables objs attrs : gset string.
Variable inc : gset (string * string).
Local Abbreviation ctx := (FormalContext_init objs attrs inc).

Lemma elem_of_get_objects (o a : string) :
  o ∈ get_objects ctx a ↔ o ∈ objs ∧ a ∈ attrs ∧ (o, a) ∈ inc.
Proof.
  unfold get_objects; simpl.
  destruct (tables_after_spec objs attrs (elements inc)) as [_ H].
  unfold tables_after in H. rewrite H. destruct (decide (a ∈ attrs)); simpl.
  - rewrite elem_of_list_to_set, list_elem_of_filter, !elem_of_elements. tauto.
  - rewrite elem_of_empty. tauto.
Qed.

Lemma elem_of_get_attributes (o a : string) :
  a ∈ get_attributes ctx o ↔ o ∈ objs ∧ a ∈ attrs ∧ (o, a) ∈ inc.
Proof.
  unfold get_attributes; simpl.
  destruct (tables_after_spec objs attrs (elements inc)) as [H _].
  unfold tables_after in H. rewrite H. destruct (decide (o ∈ objs)); simpl.
  - rewrite elem_of_list_to_set, list_elem_of_filter, !elem_of_elements. tauto.
  - rewrite elem_of_empty. tauto.
Qed.

(** [derive_extent] returns the declared objects that have every attribute
    of [X], and none unless every attribute of [X] is declared. *)
Lemma elem_of_derive_extent (X : gset string) (o : string) :
  o ∈ derive_extent ctx X ↔ o ∈ objs ∧ ∀ a, a ∈ X → a ∈ attrs ∧ (o, a) ∈ inc.
Proof.
  unfold derive_extent. destruct (elements X) as [|first rest] eqn:E.
  - apply elements_empty_inv in E. apply leibniz_equiv in E. subst X.
    simpl. split; [intros ?; split; [done|set_solver] | tauto].
  - assert (Hfirst : first ∈ X) by (apply elem_of_elements; rewrite E; left).
    rewrite <- E. rewrite foldl_inter_elem_of.
    change (default ∅ (_attr_objs ctx !! first)) with (get_objects ctx first).
    rewrite elem_of_get_objects. split.
    + intros [(Ho & _ & _) H]. split; [done|]. intros a Ha.
      apply elem_of_elements, H in Ha.
      change (o ∈ get_objects ctx a) in Ha. apply elem_of_get_objects in Ha. tauto.
    + intros [Ho H]. split; [specialize (H first Hfirst); tauto|].
      intros a Ha%elem_of_elements. change (o ∈ get_objects ctx a).
      apply elem_of_get_objects. specialize (H a Ha). tauto.
Qed.

(** [derive_intent] returns the declared attributes that every object of
    [Y] has, and none unless every object of [Y] is declared. *)
Lemma elem_of_derive_intent (Y : gset string) (a : string) :
  a ∈ derive_intent ctx Y ↔ a ∈ attrs ∧ ∀ o, o ∈ Y → o ∈ objs ∧ (o, a) ∈ inc.
Proof.
  unfold derive_intent. destruct (elements Y) as [|first rest] eqn:E.
  - apply elements_empty_inv in E. apply leibniz_equiv in E. subst Y.
    simpl. split; [intros ?; split; [done|set_solver] | tauto].
  - assert (Hfirst : first ∈ Y) by (apply elem_of_elements; rewrite E; left).
    rewrite <- E. rewrite foldl_inter_elem_of.
    change (default ∅ (_obj_attrs ctx !! first)) with (get_attributes ctx first).
    rewrite elem_of_get_attributes. split.
    + intros [(_ & Ha & _) H]. split; [done|]. intros o Ho.
      apply elem_of_elements, H in Ho.
      change (a ∈ get_attributes ctx o) in Ho. apply elem_of_get_attributes in Ho. tauto.
    + intros [Ha H]. split; [specialize (H first Hfirst); tauto|].
      intros o Ho%elem_of_elements. change (a ∈ get_attributes ctx o).
      apply elem_of_get_attributes. specialize (H o Ho). tauto.
Qed.

Lemma derive_extent_subseteq (X : gset string) : derive_extent ctx X ⊆ objs.
Proof. intros o Ho. apply elem_of_derive_extent in Ho. tauto. Qed.

Lemma derive_intent_subseteq (Y : gset string) : derive_intent ctx Y ⊆ attrs.
Proof. intros a Ha. apply elem_of_derive_intent in Ha. tauto. Qed.

Lemma closure_subseteq (X : gset string) : closure ctx X ⊆ attrs.
Proof. apply derive_intent_subseteq. Qed.

Lemma elem_of_closure (X : gset string) (a : string) :
  a ∈ closure ctx X ↔
  a ∈ attrs ∧ ∀ o, o ∈ objs → (∀ b, b ∈ X → b ∈ attrs ∧ (o, b) ∈ inc) → (o, a) ∈ inc.
Proof.
  unfold closure. rewrite elem_of_derive_intent. split.
  - intros [Ha H]. split; [done|]. intros o Ho Hb.
    apply H, elem_of_derive_extent. auto.
  - intros [Ha H]. split; [done|]. intros o [Ho Hb]%elem_of_derive_extent. auto.
Qed.

Lemma derive_extent_out_of_domain (X : gset string) (a : string) :
  a ∈ X → a ∉ attrs → derive_extent ctx X = ∅.
Proof.
  intros Ha Hn. apply set_eq. intros o. rewrite elem_of_derive_extent.
  split; [|set_solver]. intros [_ H]. destruct (H a Ha). done.
Qed.

Lemma closure_out_of_domain (X : gset string) (a : string) :
  a ∈ X → a ∉ attrs → closure ctx X = attrs.
Proof.
  intros Ha Hn. unfold closure. rewrite (derive_extent_out_of_domain X a Ha Hn).
  apply set_eq. intros b. rewrite elem_of_derive_intent. set_solver.
Qed.

Lemma closure_extensive (X : gset string) : X ⊆ attrs → X ⊆ closure ctx X.
Proof.
  intros HX a Ha. apply elem_of_closure. split; [auto|].
  intros o _ H. by apply H.
Qed.

Lemma closure_monotone (X Y : gset string) :
  X ⊆ Y → closure ctx X ⊆ closure ctx Y.
Proof.
  intros HXY a [Ha H]%elem_of_closure. apply elem_of_closure. split; [done|].
  intros o Ho Hb. apply H; [done|]. intros b Hb'. apply Hb. auto.
Qed.

Lemma closure_idempotent (X : gset string) :
  closure ctx (closure ctx X) = closure ctx X.
Proof.
  apply set_eq. intros a. split.
  - intros [Ha H]%elem_of_closure. apply elem_of_closure. split; [done|].
    intros o Ho Hb. apply H; [done|]. intros b [Hb1 Hb2]%elem_of_closure. auto.
  - apply closure_extensive, closure_subseteq.
Qed.
End Derivation.

(** ** The covering graph of a concept lattice *)

Lemma edges_add_node (g : DiGraph) (n : FormalConcept) :
  edges (add_node g n) = edges g.
Proof. unfold add_node. by destruct (decide _). Qed.

Lemma elem_of_edges_add_edge (g : DiGraph) (u v : FormalConcept)
    (e : FormalConcept * FormalConcept) :
  e ∈ edges (add_edge g u v) ↔ e ∈ edges g ∨ e = (u, v).
Proof.
  unfold add_edge. rewrite !edges_add_node.
  destruct (decide _) as [Hin|Hin]; simpl; rewrite ?edges_add_node in *.
  - split; [auto|]. intros [?| ->]; done.
  - rewrite elem_of_app, list_elem_of_singleton. done.
Qed.

Lemma edges_foldl_add_node (cs : list FormalConcept) (g : DiGraph) :
  edges (foldl add_node g cs) = edges g.
Proof.
  revert g. induction cs as [|c cs IH]; intros g; simpl; [done|].
  by rewrite IH, edges_add_node.
Qed.

Lemma is_direct_true (c1 c2 : FormalConcept) (cs : list FormalConcept) :
  is_direct c1 c2 cs = true ↔ ∀ c3, c3 ∈ cs → ¬ separates c1 c2 c3.
Proof.
  unfold separates. induction cs as [|c cs IH]; simpl.
  - split; [|done]. intros _ c3 H. by apply elem_of_nil in H.
  - destruct (decide (c ≠ c1 ∧ c ≠ c2)) as [Hne|Hne].
    + destruct (decide (intent c ⊂ intent c1 ∧ intent c2 ⊂ intent c)) as [Hb|Hb].
      * split; [done|]. intros H. destruct (H c); [left|done].
      * rewrite IH. split.
        -- intros H c3 [->|Hin]%elem_of_cons; auto.
        -- intros H c3 Hin. apply H. by right.
    + rewrite IH. split.
      * intros H c3 [->|Hin]%elem_of_cons; [|auto].
        intros [H1 H2]. apply Hne. split; intros ->.
        -- by apply (irreflexivity (⊂) (intent c1)).
        -- by apply (irreflexivity (⊂) (intent c2)).
      * intros H c3 Hin. apply H. by right.
Qed.

(** The edge that one round of the inner loop may add. *)
Lemma elem_of_edges_cover_step (cs : list FormalConcept) (c1 c2 : FormalConcept)
    (g : DiGraph) (e : FormalConcept * FormalConcept) :
  e ∈ edges (cover_step cs c1 g c2) ↔
  e ∈ edges g ∨
  (e = (c1, c2) ∧ c1 ≠ c2 ∧ intent c2 ⊂ intent c1 ∧
   ∀ c3, c3 ∈ cs → ¬ separates c1 c2 c3).
Proof.
  unfold cover_step.
  destruct (decide (c1 ≠ c2)) as [Hne|Hne]; [|naive_solver].
  destruct (decide (intent c2 ⊂ intent c1)) as [Hsub|Hsub]; [|naive_solver].
  destruct (is_direct c1 c2 cs) eqn:Hd.
  - rewrite elem_of_edges_add_edge. rewrite is_direct_true in Hd. naive_solver.
  - split; [auto|]. intros [?|(_ & _ & _ & H)]; [done|].
    apply is_direct_true in H. congruence.
Qed.

Lemma elem_of_edges_inner (cs l : list FormalConcept) (c1 : FormalConcept)
    (g : DiGraph) (e : FormalConcept * FormalConcept) :
  e ∈ edges (foldl (cover_step cs c1) g l) ↔
  e ∈ edges g ∨
  ∃ c2, c2 ∈ l ∧ e = (c1, c2) ∧ c1 ≠ c2 ∧ intent c2 ⊂ intent c1 ∧
        ∀ c3, c3 ∈ cs → ¬ separates c1 c2 c3.
Proof.
  revert g. induction l as [|c l IH]; intros g; simpl.
  - split; [auto|]. intros [?|(c2 & H & _)]; [done|]. by apply elem_of_nil in H.
  - rewrite IH, elem_of_edges_cover_step. split.
    + intros [[?|H]|(c2 & Hin & H)]; [by left| |].
      * right. exists c. split; [left|done].
      * right. exists c2. split; [by right|done].
    + intros [?|(c2 & [->|Hin]%elem_of_cons & H)]; [by left; left| |].
      * left. by right.
      * right. by exists c2.
Qed.

Lemma elem_of_edges_outer (cs l : list FormalConcept) (g : DiGraph)
    (e : FormalConcept * FormalConcept) :
  e ∈ edges (foldl (λ g c1, foldl (cover_step cs c1) g cs) g l) ↔
  e ∈ edges g ∨
  ∃ c1 c2, c1 ∈ l ∧ c2 ∈ cs ∧ e = (c1, c2) ∧ c1 ≠ c2 ∧ intent c2 ⊂ intent c1 ∧
           ∀ c3, c3 ∈ cs → ¬ separates c1 c2 c3.
Proof.
  revert g. induction l as [|c l IH]; intros g; simpl.
  - split; [auto|]. intros [?|(c1 & c2 & H & _)]; [done|]. by apply elem_of_nil in H.
  - rewrite IH, elem_of_edges_inner. split.
    + intros [[?|(c2 & Hin & H)]|(c1 & c2 & Hin & H)]; [by left| |].
      * right. exists c, c2. split; [left|done].
      * right. exists c1, c2. split; [by right|done].
    + intros [?|(c1 & c2 & [->|Hin]%elem_of_cons & H)]; [by left; left| |].
      * left. right. by exists c2.
      * right. by exists c1, c2.
Qed.

(** The edges of the covering graph are the covering pairs. *)
Lemma elem_of_lattice_edges (cs : list FormalConcept) (c1 c2 : FormalConcept) :
  (c1, c2) ∈ edges (graph (ConceptLattice_init cs)) ↔
  c1 ∈ cs ∧ c2 ∈ cs ∧ c1 ≠ c2 ∧ intent c2 ⊂ intent c1 ∧
  ∀ c3, c3 ∈ cs → ¬ separates c1 c2 c3.
Proof.
  unfold ConceptLattice_init; simpl.
  rewrite elem_of_edges_outer, edges_foldl_add_node. simpl. split.
  - intros [H|(c1' & c2' & H1 & H2 & [= <- <-] & H)]; [by apply elem_of_nil in H|done].
  - intros (H1 & H2 & H). right. by exists c1, c2.
Qed.

Lemma path_trans (g : DiGraph) (u v w : FormalConcept) :
  path g u v → path g v w → path g u w.
Proof.
  induction 1 as [u v He|u v x He Hp IH]; intros Hw.
  - by eapply path_step.
  - eapply path_step; [done|]. by apply IH.
Qed.

Lemma path_superset (cs : list FormalConcept) (c1 c2 : FormalConcept) :
  path (graph (ConceptLattice_init cs)) c1 c2 → intent c2 ⊂ intent c1.
Proof.
  induction 1 as [u v He|u v w He Hp IH].
  - apply elem_of_lattice_edges in He. tauto.
  - apply elem_of_lattice_edges in He. destruct He as (_ & _ & _ & He & _).
    by transitivity (intent v).
Qed.

Lemma superset_path_aux (cs : list FormalConcept) (n : nat) :
  ∀ c1 c2, c1 ∈ cs → c2 ∈ cs → intent c2 ⊂ intent c1 →
           (size (intent c1) - size (intent c2) ≤ n)%nat →
           path (graph (ConceptLattice_init cs)) c1 c2.
Proof.
  induction n as [|n IH]; intros c1 c2 H1 H2 Hsub Hn.
  - apply subset_size in Hsub. lia.
  - destruct (is_direct c1 c2 cs) eqn:Hd.
    + apply path_edge, elem_of_lattice_edges. rewrite is_direct_true in Hd.
      split_and!; try done. intros ->. by apply (irreflexivity (⊂) (intent c2)).
    + assert (Hex : ∃ c3, c3 ∈ cs ∧ separates c1 c2 c3).
      { clear -Hd. induction cs as [|c cs IHcs]; simpl in Hd; [done|].
        destruct (decide (c ≠ c1 ∧ c ≠ c2)).
        - destruct (decide (intent c ⊂ intent c1 ∧ intent c2 ⊂ intent c)) as [Hb|Hb].
          + exists c. split; [left|done].
          + destruct (IHcs Hd) as (c3 & ? & ?). exists c3. split; [by right|done].
        - destruct (IHcs Hd) as (c3 & ? & ?). exists c3. split; [by right|done]. }
      destruct Hex as (c3 & H3 & Hb1 & Hb2).
      pose proof (subset_size _ _ Hb1). pose proof (subset_size _ _ Hb2).
      apply path_trans with c3; apply IH; try done; lia.
Qed.

(** C4. In the lattice built from any concept list (duplicate-free or not),
    for concepts [c1 ≠ c2]: the intent of [c1] is a strict superset of the
    intent of [c2] iff a directed path leads from [c1] to [c2]; and the edge
    [c1 → c2] is present iff moreover no concept [c3] of the list has an
    intent strictly between the two. *)
Theorem lattice_order_consistency (cs : list FormalConcept) (c1 c2 : FormalConcept) :
  c1 ∈ cs → c2 ∈ cs → c1 ≠ c2 →
  let g := graph (ConceptLattice_init cs) in
  (intent c2 ⊂ intent c1 ↔ path g c1 c2) ∧
  ((c1, c2) ∈ edges g ↔
   intent c2 ⊂ intent c1 ∧
   ¬ ∃ c3, c3 ∈ cs ∧ intent c3 ⊂ intent c1 ∧ intent c2 ⊂ intent c3).
Proof.
  intros H1 H2 Hne g. split.
  - split; [|apply path_superset].
    intros Hsub. by apply (superset_path_aux cs (size (intent c1))); [..|lia].
  - unfold g. rewrite elem_of_lattice_edges. unfold separates. split.
    + intros (_ & _ & _ & Hsub & H). split; [done|].
      intros (c3 & H3 & Hb). by apply (H c3).
    + intros [Hsub H]. split_and!; try done.
      intros c3 H3 Hb. apply H. by exists c3.
Qed.

(** ** Top and bottom of a lattice *)

Lemma get_top_loop_None (cs : list FormalConcept) :
  get_top_loop cs = None ↔ ∀ c, c ∈ cs → intent c ≠ ∅.
Proof.
  induction cs as [|c cs IH]; simpl.
  - split; [|done]. intros _ c H. by apply elem_of_nil in H.
  - destruct (decide (size (intent c) = 0%nat)) as [Hz|Hz].
    + split; [done|]. intros H. apply size_empty_iff, leibniz_equiv in Hz.
      destruct (H c); [left|done].
    + rewrite IH. split.
      * intros H c' [->|Hin]%elem_of_cons; [|auto].
        intros He. apply Hz. by rewrite He, size_empty.
      * intros H c' Hin. apply H. by right.
Qed.

Lemma get_top_loop_Some (cs : list FormalConcept) (c : FormalConcept) :
  get_top_loop cs = Some c → c ∈ cs ∧ intent c = ∅.
Proof.
  induction cs as [|c' cs IH]; simpl; [done|].
  destruct (decide (size (intent c') = 0%nat)) as [Hz|Hz].
  - intros [= ->]. split; [left|]. by apply size_empty_iff, leibniz_equiv in Hz.
  - intros [H1 H2]%IH. split; [by right|done].
Qed.

Lemma foldl_max_ge (l : list nat) (x : nat) :
  (x ≤ foldl Nat.max x l)%nat ∧ ∀ y, y ∈ l → (y ≤ foldl Nat.max x l)%nat.
Proof.
  revert x. induction l as [|z l IH]; intros x; simpl.
  - split; [done|]. intros y H. by apply elem_of_nil in H.
  - destruct (IH (x `max` z)%nat) as [H1 H2]. split; [lia|].
    intros y [->|Hin]%elem_of_cons; [lia|auto].
Qed.

Lemma foldl_max_in (l : list nat) (x : nat) : foldl Nat.max x l ∈ x :: l.
Proof.
  revert x. induction l as [|z l IH]; intros x; simpl; [left|].
  specialize (IH (x `max` z)%nat). apply elem_of_cons in IH as [Heq|Hin].
  - rewrite Heq. destruct (Nat.max_spec x z) as [[_ Hm]|[_ Hm]]; rewrite Hm.
    + right. left.
    + left.
  - by right; right.
Qed.

Lemma get_bottom_loop_Some (n : nat) (cs : list FormalConcept) :
  n ∈ map (λ c, size (intent c)) cs →
  ∃ c, get_bottom_loop n cs = Some c ∧ c ∈ cs ∧ size (intent c) = n.
Proof.
  induction cs as [|c cs IH]; simpl; [by intros ?%elem_of_nil|].
  intros Hin. destruct (decide (size (intent c) = n)) as [Hn|Hn].
  - exists c. split; [done|]. split; [left|done].
  - apply elem_of_cons in Hin as [?|Hin]; [congruence|].
    destruct (IH Hin) as (c' & ? & ? & ?). exists c'. split; [done|]. split; [by right|done].
Qed.

(** C8, as the code has it.  [get_top] returns a concept with empty intent
    and returns [None] exactly when no concept of the lattice has an empty
    intent; on a non-empty lattice [get_bottom] returns a concept whose
    intent has maximal cardinality. *)
Theorem get_top_bottom_spec (cs : list FormalConcept) :
  let lattice := ConceptLattice_init cs in
  (get_top lattice = None ↔ ∀ c, c ∈ cs → intent c ≠ ∅) ∧
  (∀ c, get_top lattice = Some c → c ∈ cs ∧ intent c = ∅) ∧
  (cs ≠ [] →
   ∃ c, get_bottom lattice = Return (Some c) ∧ c ∈ cs ∧
        ∀ c', c' ∈ cs → (size (intent c') ≤ size (intent c))%nat).
Proof.
  simpl. split_and!.
  - apply get_top_loop_None.
  - apply get_top_loop_Some.
  - intros Hne. unfold get_bottom; simpl. destruct cs as [|c0 cs]; [done|]. simpl.
    set (m := foldl Nat.max (size (intent c0)) (map (λ c, size (intent c)) cs)).
    destruct (get_bottom_loop_Some m (c0 :: cs)) as (c & Hc & Hin & Hsz).
    { apply (foldl_max_in (map (λ c, size (intent c)) cs) (size (intent c0))). }
    exists c. simpl in Hc. rewrite Hc. split; [done|]. split; [done|].
    intros c' Hc'. rewrite Hsz.
    destruct (foldl_max_ge (map (λ c, size (intent c)) cs) (size (intent c0))) as [H1 H2].
    apply elem_of_cons in Hc' as [->|Hc']; [done|].
    apply H2. apply list_elem_of_fmap. by exists c'.
Qed.

(** ** The lectic order *)

Lemma elem_of_below (l : list string) (k : nat) (m : string) :
  m ∈ below l k ↔ ∃ j, (j < k)%nat ∧ l !! j = Some m.
Proof.
  unfold below. rewrite elem_of_list_to_set, elem_of_take. naive_solver.
Qed.

Lemma below_S (l : list string) (k : nat) (m : string) :
  l !! k = Some m → below l (S k) = below l k ∪ {[m]}.
Proof.
  intros H. unfold below. rewrite (take_S_r _ _ _ H), list_to_set_app_L. simpl.
  by rewrite union_empty_r_L.
Qed.

Lemma below_length (l : list string) : below l (length l) = list_to_set l.
Proof. unfold below. by rewrite firstn_all. Qed.

Lemma lectic_lt_irrefl (l : list string) (A : gset string) : ¬ lectic_lt l A A.
Proof. intros (i & m & _ & Hn & Hin & _). done. Qed.

Lemma lectic_at_trans (l : list string) (i j : nat) (A B C : gset string) :
  lectic_at l i A B → lectic_at l j B C → lectic_at l (i `min` j) A C.
Proof.
  intros (m & Hm & HmA & HmB & Hi) (m' & Hm' & HmB' & HmC & Hj).
  destruct (Nat.lt_trichotomy i j) as [Hlt|[->|Hgt]].
  - rewrite Nat.min_l by lia. exists m. split_and!; try done.
    + by apply (Hj i m).
    + intros k x Hk Hx. rewrite (Hi k x Hk Hx). apply (Hj k); [lia|done].
  - congruence.
  - rewrite Nat.min_r by lia. exists m'. split_and!; try done.
    + by rewrite (Hi j m').
    + intros k x Hk Hx. rewrite <- (Hj k x Hk Hx). apply (Hi k); [lia|done].
Qed.

Lemma lectic_lt_trans (l : list string) (A B C : gset string) :
  lectic_lt l A B → lectic_lt l B C → lectic_lt l A C.
Proof.
  intros [i Hi] [j Hj]. exists (i `min` j)%nat. by eapply lectic_at_trans.
Qed.

Lemma lectic_lt_asym (l : list string) (A B : gset string) :
  lectic_lt l A B → ¬ lectic_lt l B A.
Proof.
  intros H1 H2. by apply (lectic_lt_irrefl l A), (lectic_lt_trans l A B A).
Qed.

(** Two sets agree at the positions before [k], or differ first at a
    position before [k]. *)
Lemma first_difference (l : list string) (A B : gset string) (k : nat) :
  (∀ j m, (j < k)%nat → l !! j = Some m → (m ∈ A ↔ m ∈ B)) ∨
  (∃ i, (i < k)%nat ∧ (lectic_at l i A B ∨ lectic_at l i B A)).
Proof.
  induction k as [|k [IH|(i & Hi & IH)]].
  - left. intros j m Hj. lia.
  - destruct (l !! k) as [m|] eqn:Hm.
    + destruct (decide (m ∈ A)) as [HA|HA], (decide (m ∈ B)) as [HB|HB].
      * left. intros j x Hj Hx. destruct (decide (j = k)) as [->|]; [|apply (IH j); [lia|done]].
        rewrite Hm in Hx. injection Hx as <-. tauto.
      * right. exists k. split; [lia|]. right. exists m. split_and!; try done.
        all: intros j x Hj Hx; symmetry; by apply (IH j).
      * right. exists k. split; [lia|]. left. exists m. split_and!; try done.
        all: intros j x Hj Hx; by apply (IH j).
      * left. intros j x Hj Hx. destruct (decide (j = k)) as [->|]; [|apply (IH j); [lia|done]].
        rewrite Hm in Hx. injection Hx as <-. tauto.
    + left. intros j x Hj Hx. destruct (decide (j = k)) as [->|]; [congruence|].
      apply (IH j); [lia|done].
  - right. exists i. split; [lia|done].
Qed.

Lemma lectic_total (l : list string) (A B : gset string) :
  A ⊆ list_to_set l → B ⊆ list_to_set l →
  A = B ∨ lectic_lt l A B ∨ lectic_lt l B A.
Proof.
  intros HA HB. destruct (first_difference l A B (length l)) as [H|(i & _ & [H|H])].
  - left. apply set_eq. intros m. split; intros Hm.
    + pose proof (HA m Hm) as Hl. apply elem_of_list_to_set, list_elem_of_lookup in Hl.
      destruct Hl as [j Hj]. apply (H j m); [by eapply lookup_lt_Some|done..].
    + pose proof (HB m Hm) as Hl. apply elem_of_list_to_set, list_elem_of_lookup in Hl.
      destruct Hl as [j Hj]. apply (H j m); [by eapply lookup_lt_Some|done..].
  - right. left. by exists i.
  - right. right. by exists i.
Qed.

Lemma subset_lectic (l : list string) (A B : gset string) :
  A ⊆ B → B ⊆ list_to_set l → A ≠ B → lectic_lt l A B.
Proof.
  intros HAB HB Hne.
  destruct (lectic_total l A B) as [?|[?|(i & m & _ & Hn & Hin & _)]];
    [set_solver|done|done|done|]. destruct Hn. auto.
Qed.

Lemma weight_bound (l : list string) (A : gset string) :
  (weight l A < 2 ^ length l)%nat.
Proof.
  induction l as [|m l IH]; simpl; [lia|].
  destruct (decide (m ∈ A)); lia.
Qed.

Lemma weight_lectic_at (l : list string) (i : nat) (A B : gset string) :
  lectic_at l i A B → (weight l A < weight l B)%nat.
Proof.
  revert i. induction l as [|x l IH]; intros i (m & Hm & HA & HB & Hagree).
  - done.
  - destruct i as [|i]; simpl in *.
    + injection Hm as ->. rewrite decide_False, decide_True by done.
      pose proof (weight_bound l A). lia.
    + assert (Hx : x ∈ A ↔ x ∈ B) by (apply (Hagree 0%nat); [lia|done]).
      assert (weight l A < weight l B)%nat.
      { apply (IH i). exists m. split_and!; try done.
        intros j y Hj Hy. apply (Hagree (S j)); [lia|done]. }
      destruct (decide (x ∈ A)), (decide (x ∈ B)); try tauto; lia.
Qed.

Lemma weight_lectic (l : list string) (A B : gset string) :
  lectic_lt l A B → (weight l A < weight l B)%nat.
Proof. intros [i H]. by eapply weight_lectic_at. Qed.

(** ** All subsets of a list of attributes *)

Lemma elem_of_subsets (l : list string) (X : gset string) :
  X ∈ subsets l ↔ X ⊆ list_to_set l.
Proof.
  revert X. induction l as [|m l IH]; intros X; simpl.
  - rewrite list_elem_of_singleton. set_solver.
  - rewrite elem_of_app, list_elem_of_fmap. split.
    + intros [HX|(Y & -> & HY)].
      * apply IH in HX. set_solver.
      * apply IH in HY. set_solver.
    + intros HX. destruct (decide (m ∈ X)) as [Hm|Hm].
      * right. exists (X ∖ {[m]}). split.
        -- apply set_eq. intros x. rewrite elem_of_union, elem_of_singleton,
             elem_of_difference, elem_of_singleton.
           destruct (decide (x = m)) as [->|]; naive_solver.
        -- apply IH. set_solver.
      * left. apply IH. set_solver.
Qed.

Lemma length_subsets (l : list string) : length (subsets l) = (2 ^ length l)%nat.
Proof.
  induction l as [|m l IH]; simpl; [done|].
  rewrite length_app, length_map, IH. lia.
Qed.

Lemma NoDup_subsets (l : list string) : NoDup l → NoDup (subsets l).
Proof.
  induction 1 as [|m l Hm Hnd IH]; simpl; [apply NoDup_singleton|].
  assert (Hnot : ∀ X, X ∈ subsets l → m ∉ X).
  { intros X HX%elem_of_subsets Hin. apply Hm.
    apply HX in Hin. by apply elem_of_list_to_set in Hin. }
  apply NoDup_app. split_and!; [done| |].
  - intros X HX (Y & -> & HY)%list_elem_of_fmap. apply (Hnot _ HX). set_solver.
  - apply NoDup_fmap_2_strong; [|done].
    intros X Y HX HY Heq. apply Hnot in HX, HY. set_solver.
Qed.

(** ** The sorted attribute list *)

Lemma sorted_Permutation (s : gset string) : sorted s ≡ₚ elements s.
Proof. apply merge_sort_Permutation. Qed.

Lemma NoDup_sorted (s : gset string) : NoDup (sorted s).
Proof. rewrite sorted_Permutation. apply NoDup_elements. Qed.

Lemma elem_of_sorted (s : gset string) (m : string) : m ∈ sorted s ↔ m ∈ s.
Proof. rewrite sorted_Permutation. apply elem_of_elements. Qed.

Lemma length_sorted (s : gset string) : length (sorted s) = size s.
Proof. by rewrite sorted_Permutation. Qed.

Lemma list_to_set_sorted (s : gset string) : list_to_set (sorted s) = s.
Proof. apply set_eq. intros m. by rewrite elem_of_list_to_set, elem_of_sorted. Qed.

Lemma str_le_total : Total str_le.
Proof. intros a b. apply String.leb_total. Qed.

Lemma str_lt_iff (a b : string) : str_lt a b ↔ String_as_OT.lt a b.
Proof.
  unfold str_lt, String.ltb. rewrite <- String_as_OT.cmp_lt. unfold String_as_OT.cmp.
  by destruct (String.compare a b).
Qed.

Lemma str_le_iff (a b : string) : str_le a b ↔ a = b ∨ str_lt a b.
Proof.
  unfold str_le, str_lt, String.leb, String.ltb.
  destruct (String.compare a b) eqn:E.
  - apply String.compare_eq_iff in E. tauto.
  - tauto.
  - split; [done|]. intros [->|?]; [|done].
    assert (String_as_OT.cmp b b = Eq) by by apply String_as_OT.cmp_eq.
    unfold String_as_OT.cmp in *. congruence.
Qed.

Lemma str_lt_trans : Transitive str_lt.
Proof.
  intros a b c. rewrite !str_lt_iff. apply String_as_OT.lt_trans.
Qed.

Lemma str_le_trans : Transitive str_le.
Proof.
  intros a b c. rewrite !str_le_iff. intros [->|H1] [->|H2]; auto.
  right. by apply (str_lt_trans a b c).
Qed.

Lemma str_lt_irrefl (a : string) : ¬ str_lt a a.
Proof.
  rewrite str_lt_iff. intros H. by apply String_as_OT.lt_not_eq in H.
Qed.

Lemma Sorted_sorted (s : gset string) : Sorted str_le (sorted s).
Proof. exact (@Sorted_merge_sort _ str_le _ str_le_total (elements s)). Qed.

(** [sorted] lists the elements of the set in strictly ascending order. *)
Lemma StronglySorted_sorted (s : gset string) : StronglySorted str_lt (sorted s).
Proof.
  pose proof (@StronglySorted_merge_sort _ str_le _ str_le_trans str_le_total
                (elements s)) as Hs.
  pose proof (NoDup_sorted s) as Hnd. unfold sorted in *.
  induction Hs as [|x l Hs IH Hall]; [constructor|].
  apply NoDup_cons in Hnd as [Hx Hnd]. constructor; [auto|].
  rewrite Forall_forall in *. intros y Hy.
  destruct (proj1 (str_le_iff x y) (Hall y Hy)) as [->|?]; done.
Qed.

(** ** [list.index] and the validity loop *)

Lemma list_index_spec (l : list string) (m : string) :
  m ∈ l → ∃ i, list_index l m = Return i ∧ l !! i = Some m.
Proof.
  induction l as [|x l IH]; [by intros ?%elem_of_nil|].
  intros Hin. simpl. destruct (decide (x = m)) as [->|Hne].
  - by exists 0%nat.
  - apply elem_of_cons in Hin as [?|Hin]; [congruence|].
    destruct (IH Hin) as (i & -> & Hi). by exists (S i).
Qed.

Lemma check_valid_spec (alist : list string) (candidate : gset string) (i : nat)
    (ms : list string) :
  NoDup alist → (∀ m, m ∈ ms → m ∈ alist) →
  ∃ b, check_valid alist candidate i ms = Return b ∧
       (b = true ↔
        ∀ m j, m ∈ ms → m ∉ candidate → alist !! j = Some m → (i < j)%nat).
Proof.
  intros Hnd. induction ms as [|m ms IH]; intros Hin; simpl.
  - exists true. split; [done|]. split; [|done]. intros _ m j H. by apply elem_of_nil in H.
  - destruct IH as (b & Hb & Hiff); [intros x Hx; apply Hin; by right|].
    destruct (decide (m ∈ candidate)) as [Hc|Hc].
    + exists b. split; [done|]. rewrite Hiff. split.
      * intros H x j [->|Hx]%elem_of_cons; [done|by apply H].
      * intros H x j Hx. apply H. by right.
    + destruct (list_index_spec alist m) as (idx & -> & Hidx); [apply Hin; left|].
      simpl. destruct (decide (idx ≤ i)%nat) as [Hle|Hgt].
      * exists false. split; [done|]. split; [done|]. intros H.
        assert (i < idx)%nat by (apply (H m); [left|done|done]). lia.
      * exists b. split; [done|]. rewrite Hiff. split.
        -- intros H x j [->|Hx]%elem_of_cons; [|by apply H].
           intros _ Hj. rewrite (NoDup_lookup _ _ _ _ Hnd Hj Hidx). lia.
        -- intros H x j Hx. apply H. by right.
Qed.

(** ** NextClosure *)

Section NextClosure.
Variables objs attrs : gset string.
Variable inc : gset (string * string).
Local Abbreviation ctx := (FormalContext_init objs attrs inc).
Local Abbreviation self := (NextClosureAlgorithm_init ctx).
Local Abbreviation l := (sorted attrs).

Variable A : gset string.
Hypothesis HA : A ⊆ attrs.

Lemma lookup_sorted_attrs (i : nat) (m : string) : l !! i = Some m → m ∈ attrs.
Proof. intros H. apply elem_of_sorted. by eapply list_elem_of_lookup_2. Qed.

(** The validity test at position [i] says that the closure is the lectic
    successor candidate of [A] at [i]. *)
Lemma valid_iff_lectic_at (i : nat) (m : string) :
  l !! i = Some m → m ∉ A →
  let candidate := (A ∩ below l i) ∪ {[m]} in
  (∀ x j, x ∈ elements (closure ctx candidate) → x ∉ candidate →
          l !! j = Some x → (i < j)%nat) ↔
  lectic_at l i A (closure ctx candidate).
Proof.
  intros Hm HmA candidate.
  assert (Hcand : candidate ⊆ attrs).
  { intros x [[Hx _]%elem_of_intersection| ->%elem_of_singleton]%elem_of_union;
      [auto|by eapply lookup_sorted_attrs]. }
  pose proof (closure_extensive objs attrs inc candidate Hcand) as Hext.
  split.
  - intros H. exists m. split_and!; try done.
    + apply Hext. set_solver.
    + intros j x Hj Hx. split.
      * intros HxA. apply Hext. apply elem_of_union. left.
        apply elem_of_intersection. split; [done|]. apply elem_of_below. eauto.
      * intros HxC. destruct (decide (x ∈ candidate)) as [Hc|Hc].
        -- apply elem_of_union in Hc as [Hc| ->%elem_of_singleton]; [set_solver|].
           pose proof (NoDup_lookup _ _ _ _ (NoDup_sorted attrs) Hm Hx). lia.
        -- assert (i < j)%nat by (apply (H x); [by apply elem_of_elements|done..]). lia.
  - intros (m' & Hm' & _ & _ & Hagree) x j Hx%elem_of_elements Hc Hj.
    rewrite Hm in Hm'. injection Hm' as <-.
    destruct (Nat.lt_trichotomy j i) as [Hlt|[->|Hgt]]; [| |done].
    + destruct Hc. apply elem_of_union. left. apply elem_of_intersection. split.
      * by apply (Hagree j x).
      * apply elem_of_below. eauto.
    + rewrite Hm in Hj. injection Hj as <-. destruct Hc. set_solver.
Qed.

Lemma next_closure_from_spec (k : nat) :
  (k ≤ length l)%nat →
  ∃ r, next_closure_from self k (A ∩ below l k) = Return r ∧
       match r with
       | Some B =>
           ∃ i, (i < k)%nat ∧ B = oplus ctx l A i ∧ lectic_at l i A B ∧
                ∀ j, (i < j < k)%nat → ¬ lectic_at l j A (oplus ctx l A j)
       | None => ∀ j, (j < k)%nat → ¬ lectic_at l j A (oplus ctx l A j)
       end.
Proof.
  induction k as [|i IH]; intros Hk; simpl.
  - exists None. split; [done|]. intros j Hj. lia.
  - destruct (lookup_lt_is_Some_2 l i) as [m Hm]; [lia|].
    rewrite Hm. destruct IH as (r & Hr & Hspec); [lia|].
    assert (Hnb : m ∉ below l i).
    { intros (j & Hj & Hjm)%elem_of_below.
      pose proof (NoDup_lookup _ _ _ _ (NoDup_sorted attrs) Hm Hjm). lia. }
    rewrite (below_S l i m Hm).
    destruct (decide (m ∉ A ∩ (below l i ∪ {[m]}))) as [Hn|Hn].
    + assert (HmA : m ∉ A) by set_solver.
      assert (Hcur : A ∩ (below l i ∪ {[m]}) = A ∩ below l i) by set_solver.
      rewrite Hcur.
      destruct (check_valid_spec l (A ∩ below l i ∪ {[m]}) i
                  (elements (closure ctx (A ∩ below l i ∪ {[m]}))))
        as (b & Hb & Hiff).
      { apply NoDup_sorted. }
      { intros x Hx%elem_of_elements. apply elem_of_sorted.
        by apply (closure_subseteq objs attrs inc) in Hx. }
      rewrite Hb. simpl. rewrite (valid_iff_lectic_at i m Hm HmA) in Hiff.
      destruct b.
      * exists (Some (closure ctx (A ∩ below l i ∪ {[m]}))). split; [done|].
        exists i. split_and!; [lia| |by apply Hiff|intros j Hj; lia].
        unfold oplus. by rewrite Hm.
      * exists r. split; [done|]. destruct r as [B|].
        -- destruct Hspec as (i' & Hi' & HB & Hat & Hno). exists i'.
           split_and!; [lia|done|done|]. intros j Hj.
           destruct (decide (j = i)) as [->|Hne]; [|apply Hno; lia].
           unfold oplus. rewrite Hm. intros Hat'. apply Hiff in Hat'. done.
        -- intros j Hj. destruct (decide (j = i)) as [->|Hne]; [|apply Hspec; lia].
           unfold oplus. rewrite Hm. intros Hat'. apply Hiff in Hat'. done.
    + assert (HmA : m ∈ A) by (apply dec_stable in Hn; set_solver).
      assert (Hcur : A ∩ (below l i ∪ {[m]}) ∖ {[m]} = A ∩ below l i) by set_solver.
      rewrite Hcur. exists r. split; [done|]. destruct r as [B|].
      * destruct Hspec as (i' & Hi' & HB & Hat & Hno). exists i'.
        split_and!; [lia|done|done|]. intros j Hj.
        destruct (decide (j = i)) as [->|Hne]; [|apply Hno; lia].
        intros (m' & Hm' & Hn' & _). congruence.
      * intros j Hj. destruct (decide (j = i)) as [->|Hne]; [|apply Hspec; lia].
        intros (m' & Hm' & Hn' & _). congruence.
Qed.

(** A closed set that is lectically above [A] at position [j] contains the
    candidate of position [j], and the candidate passes the test. *)
Lemma oplus_least (C : gset string) (j : nat) :
  C ⊆ attrs → closure ctx C = C → lectic_at l j A C →
  oplus ctx l A j ⊆ C ∧ lectic_at l j A (oplus ctx l A j).
Proof.
  intros HC Hcl (m & Hm & HmA & HmC & Hagree). unfold oplus. rewrite Hm.
  assert (Hsub : A ∩ below l j ∪ {[m]} ⊆ C).
  { intros x [[Hx (k & Hk & Hkx)%elem_of_below]%elem_of_intersection
             | ->%elem_of_singleton]%elem_of_union; [|done].
    by apply (Hagree k x). }
  assert (Hcl' : closure ctx (A ∩ below l j ∪ {[m]}) ⊆ C).
  { rewrite <- Hcl. by apply closure_monotone. }
  split; [done|]. exists m. split_and!; try done.
  - apply closure_extensive; [set_solver|set_solver].
  - intros k x Hk Hx. split.
    + intros HxA. apply closure_extensive; [set_solver|].
      apply elem_of_union. left. apply elem_of_intersection. split; [done|].
      apply elem_of_below. eauto.
    + intros HxC. apply (Hagree k x); auto.
Qed.

(** [next_closure] returns the least closed set lectically above [A], and
    [None] when there is none; it never raises. *)
Lemma next_closure_correct :
  ∃ r, next_closure self A = Return r ∧
       match r with
       | Some B =>
           B ⊆ attrs ∧ closure ctx B = B ∧ lectic_lt l A B ∧
           ∀ C, C ⊆ attrs → closure ctx C = C → lectic_lt l A C →
                C = B ∨ lectic_lt l B C
       | None => ∀ C, C ⊆ attrs → closure ctx C = C → ¬ lectic_lt l A C
       end.
Proof.
  destruct (next_closure_from_spec (length l)) as (r & Hr & Hspec); [done|].
  rewrite below_length, list_to_set_sorted in Hr.
  assert (HAA : A ∩ attrs = A) by set_solver. rewrite HAA in Hr.
  exists r. split; [done|]. destruct r as [B|].
  - destruct Hspec as (i & Hi & HB & Hat & Hno).
    assert (HBsub : B ⊆ attrs).
    { rewrite HB. unfold oplus. destruct (l !! i); [apply closure_subseteq|set_solver]. }
    split_and!; [done| |by exists i|].
    + rewrite HB. unfold oplus. destruct (l !! i) eqn:E; [apply closure_idempotent|].
      destruct Hat as (? & ? & _). congruence.
    + intros C HC Hcl [j Hj].
      destruct (oplus_least C j HC Hcl Hj) as [Hsub Hpass].
      destruct (Nat.lt_trichotomy j i) as [Hlt|[->|Hgt]].
      * right. exists j. destruct Hj as (m & Hm & HmA & HmC & Hagree).
        destruct Hat as (mi & Hmi & _ & _ & HagreeB).
        exists m. split_and!; try done.
        -- by rewrite <- (HagreeB j m).
        -- intros k x Hk Hx. rewrite <- (HagreeB k x) by (done || lia).
           by apply (Hagree k).
      * rewrite <- HB in Hsub. destruct (decide (C = B)) as [|Hne]; [by left|].
        right. apply subset_lectic; [done| |congruence].
        by rewrite list_to_set_sorted.
      * destruct (Hno j); [|done]. split; [done|].
        destruct Hj as (m & Hm & _). by eapply lookup_lt_Some.
  - intros C HC Hcl [j Hj]. destruct (oplus_least C j HC Hcl Hj) as [_ Hpass].
    apply (Hspec j); [|done]. destruct Hj as (m & Hm & _). by eapply lookup_lt_Some.
Qed.

End NextClosure.

(** ** The driving loop *)

Lemma generate_loop_S (self : NextClosureAlgorithm) (fuel : nat) (cur : gset string)
    (acc : list FormalConcept) :
  generate_loop self (S fuel) (Some cur) acc
  = next ← next_closure self cur;
    generate_loop self fuel next (acc ++ [concept_of (context self) cur])%list.
Proof. reflexivity. Qed.

Section Generate.
Variables objs attrs : gset string.
Variable inc : gset (string * string).
Local Abbreviation ctx := (FormalContext_init objs attrs inc).
Local Abbreviation self := (NextClosureAlgorithm_init ctx).
Local Abbreviation l := (sorted attrs).

(** Started at the closed set [cur] with enough fuel, the loop appends the
    concepts of all closed sets from [cur] on, in lectic order. *)
Lemma generate_loop_spec (fuel : nat) :
  ∀ (cur : gset string) (acc : list FormalConcept),
    cur ⊆ attrs → closure ctx cur = cur →
    (2 ^ length l - weight l cur ≤ fuel)%nat →
    ∃ tail,
      generate_loop self fuel (Some cur) acc = Return (acc ++ map (concept_of ctx) tail)%list ∧
      (∀ I, I ∈ tail → I ⊆ attrs ∧ closure ctx I = I ∧ (I = cur ∨ lectic_lt l cur I)) ∧
      (∀ C, C ⊆ attrs → closure ctx C = C → C = cur ∨ lectic_lt l cur C → C ∈ tail) ∧
      StronglySorted (lectic_lt l) tail.
Proof.
  induction fuel as [|fuel IH]; intros cur acc Hsub Hcl Hfuel.
  - pose proof (weight_bound l cur). lia.
  - rewrite generate_loop_S.
    destruct (next_closure_correct objs attrs inc cur Hsub) as (r & Hr & Hspec).
    rewrite Hr. change (context self) with ctx. cbn [mbind py_bind].
    destruct r as [B|].
    + destruct Hspec as (HB & HBcl & Hlt & Hleast).
      destruct (IH B (acc ++ [concept_of ctx cur])%list HB HBcl) as (tail & Hrun & Hall & Hcomplete & Hsorted).
      { pose proof (weight_lectic l cur B Hlt). pose proof (weight_bound l B). lia. }
      exists (cur :: tail). split_and!.
      * rewrite Hrun. simpl. by rewrite <- app_assoc.
      * intros I [->|HI]%elem_of_cons; [by split_and!; [..|left]|].
        destruct (Hall I HI) as (? & ? & [->|?]); split_and!; try done; right; [done|].
        by apply (lectic_lt_trans l cur B I).
      * intros C HC HCcl [->|HltC]; [left|]. right.
        apply Hcomplete; [done..|]. by apply Hleast.
      * constructor; [done|]. apply Forall_forall. intros I HI.
        destruct (Hall I HI) as (_ & _ & [->|?]); [done|].
        by apply (lectic_lt_trans l cur B I).
    + exists [cur]. split_and!.
      * by destruct fuel.
      * intros I ->%list_elem_of_singleton. by split_and!; [..|left].
      * intros C HC HCcl [->|HltC]; [left|]. by destruct (Hspec C).
      * repeat constructor.
Qed.

(** [generate_all_concepts] returns: the fuel is never used up and nothing
    is raised.  The result lists the closed subsets of the declared
    attributes, in lectic order. *)
Lemma generate_all_concepts_returns :
  ∃ intents,
    generate_all_concepts self = Return (map (concept_of ctx) intents) ∧
    (∀ I, I ∈ intents ↔ I ⊆ attrs ∧ closure ctx I = I) ∧
    StronglySorted (lectic_lt l) intents.
Proof.
  unfold generate_all_concepts.
  destruct (generate_loop_spec (2 ^ size attrs) (closure ctx ∅) [])
    as (tail & Hrun & Hall & Hcomplete & Hsorted).
  { apply closure_subseteq. }
  { apply closure_idempotent. }
  { rewrite length_sorted. lia. }
  exists tail. split_and!; [done| |done].
  intros I. split.
  - intros HI. destruct (Hall I HI) as (? & ? & _). done.
  - intros [HI Hcl]. apply Hcomplete; [done..|].
    assert (Hsub : closure ctx ∅ ⊆ I).
    { rewrite <- Hcl. apply closure_monotone. set_solver. }
    destruct (decide (I = closure ctx ∅)) as [|Hne]; [by left|]. right.
    apply subset_lectic; [done| |congruence]. by rewrite list_to_set_sorted.
Qed.

Lemma StronglySorted_lectic_NoDup (intents : list (gset string)) :
  StronglySorted (lectic_lt l) intents → NoDup intents.
Proof.
  induction 1 as [|I intents Hs IH Hall]; constructor; [|done].
  intros Hin. rewrite Forall_forall in Hall.
  by apply (lectic_lt_irrefl l I), Hall.
Qed.

(** The loop emits at most one concept per subset of the attributes. *)
Lemma closed_sets_bound (intents : list (gset string)) :
  NoDup intents → (∀ I, I ∈ intents → I ⊆ attrs) →
  (length intents ≤ 2 ^ size attrs)%nat.
Proof.
  intros Hnd Hsub. rewrite <- (length_sorted attrs), <- length_subsets.
  apply submseteq_length, NoDup_submseteq; [done|].
  intros I HI. apply elem_of_subsets. rewrite list_to_set_sorted. auto.
Qed.

(** When every subset of the attributes is closed, the loop emits one
    concept per subset. *)
Lemma all_closed_count (intents : list (gset string)) :
  (∀ I, I ⊆ attrs ∧ closure ctx I = I → I ∈ intents) →
  (∀ X, X ⊆ attrs → closure ctx X = X) →
  (2 ^ size attrs ≤ length intents)%nat.
Proof.
  intros Hall Hclosed. rewrite <- (length_sorted attrs), <- length_subsets.
  apply submseteq_length, NoDup_submseteq; [apply NoDup_subsets, NoDup_sorted|].
  intros X HX%elem_of_subsets. rewrite list_to_set_sorted in HX. auto.
Qed.

Lemma is_formal_concept_iff (c : FormalConcept) :
  is_formal_concept ctx c ↔
  ∃ I, I ⊆ attrs ∧ closure ctx I = I ∧ c = concept_of ctx I.
Proof.
  unfold is_formal_concept. simpl. split.
  - intros (He & Hi & Hd1 & Hd2). exists (intent c). split_and!; [done| |].
    + unfold closure. by rewrite Hd2.
    + unfold concept_of. rewrite Hd2. by destruct c.
  - intros (I & HI & Hcl & ->). unfold concept_of; simpl. split_and!; try done.
    apply derive_extent_subseteq.
Qed.

Lemma elem_of_brute_force_intents (I : gset string) :
  I ∈ brute_force_intents ctx ↔ ∃ X, X ⊆ attrs ∧ closure ctx X = I.
Proof.
  unfold brute_force_intents. simpl. rewrite list_elem_of_fmap. split.
  - intros (X & -> & HX%elem_of_subsets). exists X. split; [|done].
    by rewrite list_to_set_elements_L in HX.
  - intros (X & HX & <-). exists X. split; [done|]. apply elem_of_subsets.
    by rewrite list_to_set_elements_L.
Qed.

(** C1. For every context, [generate_all_concepts] returns a list that holds
    exactly the formal concepts of the context; the intents in it are
    exactly the intents that brute force finds, the closures of the subsets
    of the declared attributes; no concept and no intent occurs twice; and
    the intents come in strictly increasing lectic order for the attribute
    order [attributes_list], which lists the declared attributes in
    strictly ascending order. *)
Theorem generate_all_concepts_complete :
  ∃ cs,
    generate_all_concepts self = Return cs ∧
    (∀ c, c ∈ cs ↔ is_formal_concept ctx c) ∧
    (∀ I, I ∈ map intent cs ↔ I ∈ brute_force_intents ctx) ∧
    (∀ I, I ∈ map intent cs ↔ ∃ X, X ⊆ attributes ctx ∧ closure ctx X = I) ∧
    NoDup cs ∧ NoDup (map intent cs) ∧
    StronglySorted (lectic_lt (attributes_list self)) (map intent cs) ∧
    StronglySorted str_lt (attributes_list self) ∧
    (∀ m, m ∈ attributes_list self ↔ m ∈ attributes ctx).
Proof.
  destruct generate_all_concepts_returns as (intents & Hrun & Hiff & Hsorted).
  exists (map (concept_of ctx) intents).
  assert (Hmap : map intent (map (concept_of ctx) intents) = intents).
  { rewrite map_map. simpl. apply map_id. }
  rewrite Hmap. simpl.
  pose proof (StronglySorted_lectic_NoDup intents Hsorted) as Hnd.
  split_and!; try done.
  - intros c. rewrite is_formal_concept_iff. rewrite list_elem_of_fmap.
    split.
    + intros (I & -> & HI). apply Hiff in HI. exists I. tauto.
    + intros (I & HI & Hcl & ->). exists I. split; [done|]. by apply Hiff.
  - intros I. rewrite elem_of_brute_force_intents, Hiff. split.
    + intros [HI Hcl]. by exists I.
    + intros (X & HX & <-). split; [apply closure_subseteq|apply closure_idempotent].
  - intros I. rewrite Hiff. split.
    + intros [HI Hcl]. by exists I.
    + intros (X & HX & <-). split; [apply closure_subseteq|apply closure_idempotent].
  - apply (NoDup_fmap_1 intent).
    change (NoDup (map intent (map (concept_of ctx) intents))). by rewrite Hmap.
  - apply StronglySorted_sorted.
  - apply elem_of_sorted.
Qed.

End Generate.

(** ** Relationships of a lattice *)

Lemma elem_of_add_pairs_inner (attr1 : string) (l : list string)
    (rel : gset (string * string)) (p : string * string) :
  p ∈ foldl (λ rel attr2,
               if decide (attr1 ≠ attr2) then rel ∪ {[ (attr1, attr2) ]} else rel)
            rel l ↔
  p ∈ rel ∨ ∃ attr2, attr2 ∈ l ∧ attr1 ≠ attr2 ∧ p = (attr1, attr2).
Proof.
  revert rel. induction l as [|x l IH]; intros rel; simpl.
  - split; [auto|]. intros [?|(? & ?%elem_of_nil & _)]; done.
  - rewrite IH. destruct (decide (attr1 ≠ x)) as [Hne|Heq].
    + rewrite elem_of_union, elem_of_singleton. split.
      * intros [[?| ->]|(a2 & ? & ? & ?)]; [by left| |].
        -- right. exists x. split; [left|done].
        -- right. exists a2. split; [by right|done].
      * intros [?|(a2 & [->|?]%elem_of_cons & ? & ?)]; [by left; left|by left; right|].
        right. by exists a2.
    + split.
      * intros [?|(a2 & ? & ? & ?)]; [by left|]. right. exists a2. split; [by right|done].
      * intros [?|(a2 & [->|?]%elem_of_cons & ? & ?)]; [by left|done|].
        right. by exists a2.
Qed.

Lemma elem_of_add_pairs (child_attrs : gset string) (rel : gset (string * string))
    (p : string * string) :
  p ∈ add_pairs child_attrs rel ↔
  p ∈ rel ∨ (p.1 ∈ child_attrs ∧ p.2 ∈ child_attrs ∧ p.1 ≠ p.2).
Proof.
  unfold add_pairs.
  assert (Hgen : ∀ (l1 : list string) (rel : gset (string * string)),
    p ∈ foldl (λ rel attr1,
                 foldl (λ rel attr2,
                          if decide (attr1 ≠ attr2) then rel ∪ {[ (attr1, attr2) ]}
                          else rel)
                       rel (elements child_attrs)) rel l1 ↔
    p ∈ rel ∨ (p.1 ∈ l1 ∧ p.2 ∈ child_attrs ∧ p.1 ≠ p.2)).
  { clear rel. induction l1 as [|x l1 IH]; intros rel; simpl.
    - split; [auto|]. intros [?|(?%elem_of_nil & _)]; done.
    - rewrite IH, elem_of_add_pairs_inner. split.
      + intros [[?|(a2 & Ha2%elem_of_elements & Hne & ->)]|(? & ? & ?)]; [by left| |].
        * right. simpl. split_and!; [left|done|done].
        * right. split_and!; [by right|done|done].
      + intros [?|([Heq|?]%elem_of_cons & ? & ?)]; [by left; left| |].
        * left. right. exists p.2. split_and!; [by apply elem_of_elements|congruence|].
          rewrite <- Heq. by destruct p.
        * right. done. }
  rewrite Hgen. by rewrite elem_of_elements.
Qed.

Lemma elem_of_extract_relationships (lattice : ConceptLattice) (p : string * string) :
  p ∈ extract_relationships lattice ↔
  ∃ c, c ∈ concepts lattice ∧ successors (graph lattice) c ≠ [] ∧
       p.1 ∈ intent c ∧ p.2 ∈ intent c ∧ p.1 ≠ p.2.
Proof.
  unfold extract_relationships.
  assert (Hparents : ∀ (I : gset string) (parents : list FormalConcept)
                       (rel : gset (string * string)),
    p ∈ foldl (λ rel parent, add_pairs I rel) rel parents ↔
    p ∈ rel ∨ (parents ≠ [] ∧ p.1 ∈ I ∧ p.2 ∈ I ∧ p.1 ≠ p.2)).
  { intros I parents. induction parents as [|x parents IH]; intros rel; simpl.
    - naive_solver.
    - rewrite IH, elem_of_add_pairs. naive_solver. }
  assert (Hgen : ∀ (cs : list FormalConcept) (rel : gset (string * string)),
    p ∈ foldl (λ rel concept,
                 foldl (λ rel parent, add_pairs (intent concept) rel)
                       rel (successors (graph lattice) concept)) rel cs ↔
    p ∈ rel ∨ ∃ c, c ∈ cs ∧ successors (graph lattice) c ≠ [] ∧
                   p.1 ∈ intent c ∧ p.2 ∈ intent c ∧ p.1 ≠ p.2).
  { induction cs as [|x cs IH]; intros rel; simpl.
    - split; [auto|]. intros [?|(? & ?%elem_of_nil & _)]; done.
    - rewrite IH, Hparents. split.
      + intros [[?|?]|(c & ? & ?)]; [by left| |].
        * right. exists x. split; [left|done].
        * right. exists c. split; [by right|done].
      + intros [?|(c & [->|?]%elem_of_cons & ?)]; [by left; left|by left; right|].
        right. by exists c. }
  rewrite Hgen. rewrite elem_of_empty. naive_solver.
Qed.

Lemma extract_relationships_symmetric (lattice : ConceptLattice) (a b : string) :
  (a, b) ∈ extract_relationships lattice → (b, a) ∈ extract_relationships lattice.
Proof.
  rewrite !elem_of_extract_relationships. simpl.
  intros (c & ? & ? & ? & ? & ?). exists c. split_and!; done.
Qed.

(** ** The isomorphism check *)

Lemma hallucinated_loop_spec (gt_rel : gset (string * string)) (ctx : FormalContext)
    (ans : list (string * string)) (acc : list (string * string)) :
  hallucinated_loop gt_rel (Some ctx) ans acc
  = Return (acc ++ filter (flagged gt_rel (attributes ctx)) ans)%list.
Proof.
  revert acc. induction ans as [|[a b] ans IH]; intros acc; simpl.
  - by rewrite app_nil_r.
  - rewrite filter_cons.
    destruct (decide (flagged gt_rel (attributes ctx) (a, b))) as [Hf|Hf];
      unfold flagged in Hf; simpl in Hf;
      destruct (decide ((a, b) ∉ gt_rel)) as [Hn|Hn];
      try destruct (decide (a ∈ attributes ctx ∧ b ∈ attributes ctx)) as [Hin|Hin];
      try tauto; rewrite IH; try done.
    by rewrite <- app_assoc.
Qed.

Lemma text_to_context_constructed (text : string) :
  ∃ objs attrs inc, text_to_context text = FormalContext_init objs attrs inc.
Proof. unfold text_to_context. eauto. Qed.

Lemma lattice_of_text_returns (text : string) :
  ∃ lattice, lattice_of_text text = Return lattice.
Proof.
  unfold lattice_of_text.
  destruct (text_to_context_constructed text) as (objs & attrs & inc & ->).
  destruct (generate_all_concepts_returns objs attrs inc) as (intents & -> & _).
  eauto.
Qed.

(** What [verify] returns, in terms of the two lattices. *)
Lemma verify_spec (self : TruthVerifier) (citations : list string) (answer : string) :
  ∃ gt_lattice ans_lattice,
    lattice_of_text (join_space citations) = Return gt_lattice ∧
    lattice_of_text answer = Return ans_lattice ∧
    let gt_ctx := text_to_context (join_space citations) in
    let gt_rel := extract_relationships gt_lattice in
    let ans_rel := extract_relationships ans_lattice in
    let hallucinated := filter (flagged gt_rel (attributes gt_ctx)) (elements ans_rel) in
    verify self citations answer =
    Return ({| ground_truth_lattice := Some gt_lattice;
               answer_lattice := Some ans_lattice;
               ground_truth_context := Some gt_ctx;
               answer_context := Some (text_to_context answer) |},
            {| is_valid := bool_decide (length hallucinated = 0%nat);
               error := None;
               hallucinated_edges := hallucinated;
               confidence :=
                 if decide (size ans_rel = 0%nat) then 1%Q
                 else (inject_Z (Z.of_nat (size ans_rel) - Z.of_nat (length hallucinated))
                       / inject_Z (Z.of_nat (size ans_rel)))%Q;
               ground_truth_concepts := Some (length (concepts gt_lattice));
               answer_concepts := Some (length (concepts ans_lattice));
               ground_truth_relationships := Some (size gt_rel);
               answer_relationships := Some (size ans_rel) |}).
Proof.
  destruct (lattice_of_text_returns (join_space citations)) as [gt_lattice Hgt].
  destruct (lattice_of_text_returns answer) as [ans_lattice Hans].
  exists gt_lattice, ans_lattice. split_and!; [done..|].
  unfold lattice_of_text in Hgt, Hans.
  unfold verify, build_ground_truth_lattice, build_answer_lattice.
  destruct (generate_all_concepts (NextClosureAlgorithm_init
              (text_to_context (join_space citations)))) as [gcs| |]; try done.
  destruct (generate_all_concepts (NextClosureAlgorithm_init
              (text_to_context answer))) as [acs| |]; try done.
  simpl in Hgt, Hans. injection Hgt as <-. injection Hans as <-.
  cbn [mbind py_bind mret py_ret]. unfold check_topological_isomorphism.
  cbn [ground_truth_lattice answer_lattice ground_truth_context].
  rewrite hallucinated_loop_spec. done.
Qed.

(** ** The closure operator *)

(** C3. For attribute sets [X] and [Y] over a context, that is, subsets of
    its declared attributes, the closure is idempotent, extensive and
    monotone. *)
Theorem closure_algebra (objs attrs : gset string) (inc : gset (string * string))
    (X Y : gset string) (HX : X ⊆ attrs) (HY : Y ⊆ attrs) :
  let ctx := FormalContext_init objs attrs inc in
  closure ctx (closure ctx X) = closure ctx X ∧
  X ⊆ closure ctx X ∧
  (X ⊆ Y → closure ctx X ⊆ closure ctx Y).
Proof.
  simpl. split_and!.
  - apply closure_idempotent.
  - by apply closure_extensive.
  - apply closure_monotone.
Qed.

Lemma closure_algebra_witness :
  ({[ "fur" ]} : gset string) ⊆ animals_attributes ∧
  ({[ "fur"; "legs" ]} : gset string) ⊆ animals_attributes ∧
  closure animals (closure animals {[ "fur" ]}) = closure animals {[ "fur" ]} ∧
  {[ "fur" ]} ⊆ closure animals {[ "fur" ]} ∧
  (({[ "fur" ]} : gset string) ⊆ {[ "fur"; "legs" ]} →
   closure animals {[ "fur" ]} ⊆ closure animals {[ "fur"; "legs" ]}).
Proof.
  split; [by_evaluation|]. split; [by_evaluation|].
  apply (closure_algebra animals_objects animals_attributes animals_incidence
           {[ "fur" ]} {[ "fur"; "legs" ]}); by_evaluation.
Defined.

(** C10. When [X] holds an attribute that the context does not declare,
    [derive_extent] returns the empty set and [closure] the declared
    attribute set, so that [X] is not included in its closure. *)
Theorem closure_out_of_domain_attribute (objs attrs : gset string)
    (inc : gset (string * string)) (X : gset string)
    (HX : ∃ a, a ∈ X ∧ a ∉ attrs) :
  let ctx := FormalContext_init objs attrs inc in
  derive_extent ctx X = ∅ ∧
  closure ctx X = attributes ctx ∧
  ¬ X ⊆ closure ctx X.
Proof.
  destruct HX as (a & Ha & Hn). simpl. split_and!.
  - by apply (derive_extent_out_of_domain objs attrs inc X a).
  - by apply (closure_out_of_domain objs attrs inc X a).
  - rewrite (closure_out_of_domain objs attrs inc X a Ha Hn). intros Hsub. auto.
Qed.

Lemma closure_out_of_domain_attribute_witness :
  (∃ a, a ∈ ({[ "legs"; "wings" ]} : gset string) ∧ a ∉ animals_attributes) ∧
  derive_extent animals {[ "legs"; "wings" ]} = ∅ ∧
  closure animals {[ "legs"; "wings" ]} = attributes animals ∧
  ¬ ({[ "legs"; "wings" ]} : gset string) ⊆ closure animals {[ "legs"; "wings" ]}.
Proof.
  assert (H : ∃ a, a ∈ ({[ "legs"; "wings" ]} : gset string) ∧ a ∉ animals_attributes).
  { exists "wings". split; by_evaluation. }
  split; [exact H|].
  exact (closure_out_of_domain_attribute animals_objects animals_attributes
           animals_incidence {[ "legs"; "wings" ]} H).
Defined.

(** ** The covering graph: a witness *)

Lemma lattice_order_consistency_witness :
  let cs := [with_fur; with_legs] in
  let g := graph (ConceptLattice_init cs) in
  with_fur ∈ cs ∧ with_legs ∈ cs ∧ with_fur ≠ with_legs ∧
  (intent with_legs ⊂ intent with_fur ↔ path g with_fur with_legs) ∧
  ((with_fur, with_legs) ∈ edges g ↔
   intent with_legs ⊂ intent with_fur ∧
   ¬ ∃ c3, c3 ∈ cs ∧ intent c3 ⊂ intent with_fur ∧ intent with_legs ⊂ intent c3).
Proof.
  intros cs g.
  assert (H1 : with_fur ∈ cs) by by_evaluation.
  assert (H2 : with_legs ∈ cs) by by_evaluation.
  assert (H3 : with_fur ≠ with_legs) by by_evaluation.
  split; [exact H1|]. split; [exact H2|]. split; [exact H3|].
  exact (lattice_order_consistency cs with_fur with_legs H1 H2 H3).
Defined.

(** ** Top and bottom: the claim as stated fails *)

(** The lattice generated for a one-sentence text is not empty, yet
    [get_top] returns [None] on it; and [get_bottom] raises [ValueError] on
    the empty lattice. *)
Lemma get_top_bottom_counterexample :
  generate_all_concepts (NextClosureAlgorithm_init sky_context) = Return [sky_concept] ∧
  concepts (ConceptLattice_init [sky_concept]) ≠ [] ∧
  get_top (ConceptLattice_init [sky_concept]) = None ∧
  get_bottom (ConceptLattice_init []) = Raise ValueError.
Proof.
  split_and!; [by vm_compute|done|by vm_compute|by vm_compute].
Qed.

Lemma get_top_bottom_spec_witness :
  let lattice := ConceptLattice_init [with_legs; with_fur] in
  [with_legs; with_fur] ≠ [] ∧
  (get_top lattice = None ↔ ∀ c, c ∈ [with_legs; with_fur] → intent c ≠ ∅) ∧
  (∀ c, get_top lattice = Some c → c ∈ [with_legs; with_fur] ∧ intent c = ∅) ∧
  ∃ c, get_bottom lattice = Return (Some c) ∧ c ∈ [with_legs; with_fur] ∧
       ∀ c', c' ∈ [with_legs; with_fur] → (size (intent c') ≤ size (intent c))%nat.
Proof.
  intros lattice.
  assert (H : [with_legs; with_fur] ≠ []) by by_evaluation.
  destruct (get_top_bottom_spec [with_legs; with_fur]) as (H1 & H2 & H3).
  split; [exact H|]. split; [exact H1|]. split; [exact H2|]. exact (H3 H).
Defined.

(** ** Truth verification *)

(** C5. [verify] returns; a pair is in [hallucinated_edges] iff it is a
    relationship of the answer lattice, is not a relationship of the
    ground-truth lattice, and both its attributes are attributes of the
    ground-truth context; and [is_valid] holds exactly when no pair is
    flagged. *)
Theorem verify_flags (self : TruthVerifier) (citations : list string) (answer : string) :
  ∃ gt_lattice ans_lattice self' result,
    lattice_of_text (join_space citations) = Return gt_lattice ∧
    lattice_of_text answer = Return ans_lattice ∧
    verify self citations answer = Return (self', result) ∧
    (∀ a b, (a, b) ∈ hallucinated_edges result ↔
            (a, b) ∈ extract_relationships ans_lattice ∧
            ((a, b) ∉ extract_relationships gt_lattice) ∧
            a ∈ attributes (text_to_context (join_space citations)) ∧
            b ∈ attributes (text_to_context (join_space citations))) ∧
    (is_valid result = true ↔ hallucinated_edges result = []).
Proof.
  destruct (verify_spec self citations answer) as (gt & ans & Hgt & Hans & Hv).
  cbv zeta in Hv. eexists gt, ans, _, _. split_and!; [done|done|exact Hv|..]; simpl.
  - intros a b. rewrite list_elem_of_filter, elem_of_elements. unfold flagged. simpl.
    tauto.
  - rewrite bool_decide_eq_true. apply length_zero_iff_nil.
Qed.

(** C6. The confidence that [verify] returns is 1 when the answer lattice
    has no relationship, and otherwise the share of the relationships of
    the answer that are not flagged.  For the empty answer the answer
    lattice has no relationship, the confidence is 1 and [detect] reports
    the status VALID. *)
Theorem verify_confidence (self : TruthVerifier) (citations : list string)
    (answer : string) :
  (∃ ans_lattice self' result,
     lattice_of_text answer = Return ans_lattice ∧
     verify self citations answer = Return (self', result) ∧
     let n := size (extract_relationships ans_lattice) in
     confidence result =
       if decide (n = 0%nat) then 1%Q
       else (inject_Z (Z.of_nat n - Z.of_nat (length (hallucinated_edges result)))
             / inject_Z (Z.of_nat n))%Q) ∧
  (∃ ans_lattice self' result report,
     lattice_of_text "" = Return ans_lattice ∧
     extract_relationships ans_lattice = ∅ ∧
     verify self citations "" = Return (self', result) ∧
     confidence result = 1%Q ∧
     detect citations "" = Return report ∧
     status report = "VALID" ∧ report_confidence report = 1%Q).
Proof.
  split.
  - destruct (verify_spec self citations answer) as (gt & ans & Hgt & Hans & Hv).
    cbv zeta in Hv. eexists ans, _, _. split_and!; [done|exact Hv|]. done.
  - destruct (verify_spec self citations "") as (gt & ans & Hgt & Hans & Hv).
    destruct (verify_spec TruthVerifier_init citations "") as (gt' & ans' & Hgt' & Hans' & Hv').
    assert (Hempty : lattice_of_text "" =
                     Return (ConceptLattice_init [ {| extent := ∅; intent := ∅ |} ]))
      by (by vm_compute).
    assert (Hrel : extract_relationships
                     (ConceptLattice_init [ {| extent := ∅; intent := ∅ |} ]) = ∅)
      by (by vm_compute).
    rewrite Hempty in Hans, Hans'. injection Hans as <-. injection Hans' as <-.
    cbv zeta in Hv, Hv'. rewrite Hrel in Hv, Hv'.
    rewrite elements_empty, size_empty in Hv, Hv'. simpl in Hv, Hv'.
    eexists _, _, _, _. split_and!; [exact Hempty|exact Hrel|exact Hv|done|..].
    + unfold detect. rewrite Hv'. reflexivity.
    + done.
    + done.
Qed.

(** What [detect] reports, in terms of the result of [verify]. *)
Lemma detect_spec (sources : list string) (generated_text : string) :
  ∃ self' result,
    verify TruthVerifier_init sources generated_text = Return (self', result) ∧
    detect sources generated_text =
    Return {| status := if is_valid result then "VALID" else "HALLUCINATION_DETECTED";
              report_confidence := confidence result;
              hallucinations := map (λ p, invented p.1 p.2) (hallucinated_edges result) |}.
Proof.
  destruct (verify_spec TruthVerifier_init sources generated_text)
    as (gt & ans & Hgt & Hans & Hv).
  cbv zeta in Hv. eexists _, _. split; [exact Hv|].
  unfold detect. rewrite Hv. cbn [mbind py_bind mret py_ret]. cbn [is_valid hallucinated_edges confidence].
  f_equal. f_equal.
  destruct (filter _ _) as [|p h]; reflexivity.
Qed.

(** C9. The relationships of a lattice form a symmetric relation; hence
    [verify] flags a pair in both orders or not at all, and [detect]
    reports a directional finding for each of the two orders. *)
Theorem relationships_symmetric :
  (∀ lattice a b,
     (a, b) ∈ extract_relationships lattice ↔ (b, a) ∈ extract_relationships lattice) ∧
  (∀ self citations answer,
     ∃ self' result,
       verify self citations answer = Return (self', result) ∧
       ∀ a b, (a, b) ∈ hallucinated_edges result ↔ (b, a) ∈ hallucinated_edges result) ∧
  (∀ sources generated_text,
     ∃ self' result report,
       verify TruthVerifier_init sources generated_text = Return (self', result) ∧
       detect sources generated_text = Return report ∧
       ∀ a b, (a, b) ∈ hallucinated_edges result →
              invented a b ∈ hallucinations report ∧
              invented b a ∈ hallucinations report).
Proof.
  assert (Hsym : ∀ lattice a b,
    (a, b) ∈ extract_relationships lattice ↔ (b, a) ∈ extract_relationships lattice).
  { intros lattice a b. split; apply extract_relationships_symmetric. }
  assert (Hflag : ∀ self citations answer,
     ∃ self' result,
       verify self citations answer = Return (self', result) ∧
       ∀ a b, (a, b) ∈ hallucinated_edges result ↔ (b, a) ∈ hallucinated_edges result).
  { intros self citations answer.
    destruct (verify_flags self citations answer)
      as (gt & ans & self' & result & _ & _ & Hv & Hiff & _).
    exists self', result. split; [done|]. intros a b.
    rewrite !Hiff, (Hsym ans a b), (Hsym gt a b). tauto. }
  split_and!; [done|done|].
  intros sources text.
  destruct (detect_spec sources text) as (self' & result & Hv & Hd).
  destruct (Hflag TruthVerifier_init sources text) as (self'' & result' & Hv' & Hiff).
  rewrite Hv in Hv'. injection Hv' as <- <-.
  eexists self', result, _. split_and!; [done|exact Hd|]. simpl.
  intros a b Hab. split.
  - apply list_elem_of_fmap. by exists (a, b).
  - apply list_elem_of_fmap. exists (b, a). split; [done|]. by apply Hiff.
Qed.

(** A source of one sentence has no relationship; an answer that splits the
    sentence in two has twelve, all over the vocabulary of the source: all
    are flagged and the confidence is 0. *)
Example detect_split_sentence :
  ∃ report,
    detect ["The sky is blue."] "The sky. Is blue." = Return report ∧
    status report = "HALLUCINATION_DETECTED" ∧
    report_confidence report = (0 # 12)%Q ∧
    length (hallucinations report) = 12%nat ∧
    invented "sky" "blue" ∈ hallucinations report ∧
    invented "blue" "sky" ∈ hallucinations report.
Proof.
  eexists. split; [by vm_compute|]. split_and!; try by vm_compute.
  - by_evaluation.
  - by_evaluation.
Qed.

(** ** The stability index *)

Lemma stability_loop_count {G : Type} (randint : Z → Z → G → Z * G)
    (sample : list string → Z → G → list string * G) (n : nat)
    (extent_list : list string) (preserved_count : Z) (g : G) :
  (stability_loop randint sample n extent_list preserved_count g).1
  = (preserved_count + Z.of_nat n)%Z.
Proof.
  revert preserved_count g. induction n as [|n IH]; intros p g; simpl; [lia|].
  destruct (randint 1%Z (Z.of_nat (length extent_list)) g) as [sample_size g1].
  destruct (sample extent_list sample_size g1) as [subset g2].
  rewrite IH. lia.
Qed.

(** Whatever is drawn, every trial is counted as preserved: the index of a
    concept with a non-empty extent is [samples / samples]. *)
Lemma calculate_stability_index_constant {G : Type} (randint : Z → Z → G → Z * G)
    (sample : list string → Z → G → list string * G) (self : ConceptLattice)
    (concept : FormalConcept) (samples : Z) (g : G) :
  extent concept ≠ ∅ → (0 < samples)%Z →
  (calculate_stability_index randint sample self concept samples g).1
  = Return (inject_Z samples / inject_Z samples)%Q.
Proof.
  intros Hne Hpos. unfold calculate_stability_index.
  destruct (decide (size (extent concept) = 0%nat)) as [Hz|_].
  { apply size_empty_iff, leibniz_equiv in Hz. done. }
  pose proof (stability_loop_count randint sample (Z.to_nat samples)
                (elements (extent concept)) 0 g) as Hcount.
  destruct (stability_loop randint sample (Z.to_nat samples)
              (elements (extent concept)) 0 g) as [preserved_count g'].
  simpl in Hcount. destruct (decide (samples = 0%Z)); [lia|]. simpl.
  do 3 f_equal. lia.
Qed.

(** C7, on the code.  [with_legs] is a concept of the animals context.  With
    the generator that always draws the first object alone, no trial
    preserves its intent, so the documented index is 0 of 100; the code
    returns 100 of 100. *)
Theorem stability_index_placeholder :
  is_formal_concept animals with_legs ∧
  (documented_stability_index first_randint first_sample animals with_legs 100 tt).1
  = Return (0 # 100)%Q ∧
  (calculate_stability_index first_randint first_sample
     (ConceptLattice_init [with_legs; with_fur]) with_legs 100 tt).1
  = Return (100 # 100)%Q.
Proof.
  split_and!.
  - unfold is_formal_concept. split_and!; by_evaluation.
  - by vm_compute.
  - by vm_compute.
Qed.

(** ** No ceiling on the number of concepts *)

Lemma NoDup_names (n : nat) : NoDup (names n).
Proof. unfold names. apply (NoDup_fmap_2 _), NoDup_seq. Qed.

Lemma size_names (n : nat) : size (list_to_set (names n) : gset string) = n.
Proof.
  rewrite size_list_to_set by apply NoDup_names.
  unfold names. by rewrite length_map, length_seq.
Qed.

Lemma boolean_context_closed (n : nat) (X : gset string) :
  X ⊆ list_to_set (names n) → closure (boolean_context n) X = X.
Proof.
  intros HX. unfold boolean_context. apply set_eq. intros a.
  rewrite elem_of_closure. split.
  - intros [Ha H]. destruct (decide (a ∈ X)) as [|Hn]; [done|]. exfalso.
    specialize (H a Ha). 
    assert (Hinc : (a, a) ∈ (list_to_set (filter (λ p : string * string, p.1 ≠ p.2)
                                 (cprod (names n) (names n))) : gset (string * string))).
    { apply H. intros b Hb. split; [auto|].
      apply elem_of_list_to_set, list_elem_of_filter. simpl. split; [congruence|].
      pose proof (HX b Hb) as Hb'. rewrite elem_of_list_to_set in Hb'.
      pose proof Ha as Ha'. rewrite elem_of_list_to_set in Ha'.
      apply list_elem_of_cprod. by split. }
    apply elem_of_list_to_set, list_elem_of_filter in Hinc. simpl in Hinc. tauto.
  - intros Ha. split; [auto|]. intros o Ho H. by apply H.
Qed.

(** The Boolean context of [n] attributes has one concept per subset. *)
Lemma boolean_context_count (n : nat) :
  ∃ cs, generate_all_concepts (NextClosureAlgorithm_init (boolean_context n)) = Return cs ∧
        length cs = (2 ^ n)%nat.
Proof.
  unfold boolean_context.
  destruct (generate_all_concepts_returns (list_to_set (names n)) (list_to_set (names n))
              (list_to_set (filter (λ p, p.1 ≠ p.2) (cprod (names n) (names n)))))
    as (intents & Hrun & Hiff & Hsorted).
  eexists. split; [exact Hrun|]. rewrite length_map.
  apply Nat.le_antisymm.
  - rewrite <- (size_names n) at 1. eapply closed_sets_bound.
    + by eapply StronglySorted_lectic_NoDup.
    + intros I HI. by apply Hiff in HI as [? _].
  - rewrite <- (size_names n) at 1. eapply all_closed_count.
    + intros I HI. apply Hiff, HI.
    + apply boolean_context_closed.
Qed.

(** The claim of C2 fails: the Boolean context of 14 attributes makes
    [generate_all_concepts] return more than [LCA_MAX_CONCEPTS] concepts. *)
Lemma ceiling_counterexample :
  ∃ cs, generate_all_concepts (NextClosureAlgorithm_init (boolean_context 14)) = Return cs ∧
        (LCA_MAX_CONCEPTS < Z.of_nat (length cs))%Z.
Proof.
  destruct (boolean_context_count 14) as (cs & Hrun & Hlen).
  exists cs. split; [done|]. rewrite Hlen. by vm_compute.
Qed.

(** C2, as the code has it.  [generate_all_concepts] does not read
    [LCA_MAX_CONCEPTS] and has no failure path: for every context it
    returns a list that holds every formal concept, of at most
    [2 ^ |attributes|] concepts; and that bound is reached for every number
    of attributes. *)
Theorem generate_all_concepts_no_ceiling :
  (∀ objs attrs inc,
     let ctx := FormalContext_init objs attrs inc in
     ∃ cs, generate_all_concepts (NextClosureAlgorithm_init ctx) = Return cs ∧
           (∀ c, is_formal_concept ctx c → c ∈ cs) ∧
           (length cs ≤ 2 ^ size attrs)%nat) ∧
  (∀ n, ∃ cs,
     generate_all_concepts (NextClosureAlgorithm_init (boolean_context n)) = Return cs ∧
     length cs = (2 ^ n)%nat).
Proof.
  split; [|apply boolean_context_count].
  intros objs attrs inc ctx.
  destruct (generate_all_concepts_returns objs attrs inc) as (intents & Hrun & Hiff & Hsorted).
  eexists. split; [exact Hrun|]. split.
  - intros c (I & HI & Hcl & ->)%is_formal_concept_iff.
    apply list_elem_of_fmap. exists I. split; [done|]. by apply Hiff.
  - rewrite length_map. eapply closed_sets_bound.
    + by eapply StronglySorted_lectic_NoDup.
    + intros I HI. by apply Hiff in HI as [? _].
Qed.

(** * Further properties of the code *)

(** ** FormalContext *)

(** X1. The two lookup tables that [__init__] builds mirror each other and
    hold exactly the incidence pairs whose object and attribute are both
    declared; the other pairs are dropped. *)
Theorem lookup_tables_consistent (objs attrs : gset string)
    (inc : gset (string * string)) (o a : string) :
  let ctx := FormalContext_init objs attrs inc in
  (o ∈ get_objects ctx a ↔ o ∈ objs ∧ a ∈ attrs ∧ (o, a) ∈ inc) ∧
  (a ∈ get_attributes ctx o ↔ o ∈ get_objects ctx a).
Proof.
  simpl. rewrite elem_of_get_objects, elem_of_get_attributes. tauto.
Qed.

(** X2. The two derivation operators form a Galois connection between the
    sets of declared objects and the sets of declared attributes. *)
Theorem galois_connection (objs attrs : gset string) (inc : gset (string * string))
    (X Y : gset string) (HX : X ⊆ attrs) (HY : Y ⊆ objs) :
  let ctx := FormalContext_init objs attrs inc in
  Y ⊆ derive_extent ctx X ↔ X ⊆ derive_intent ctx Y.
Proof.
  simpl. split.
  - intros H a Ha. apply elem_of_derive_intent. split; [auto|].
    intros o Ho. split; [auto|].
    apply H, elem_of_derive_extent in Ho as [_ Ho]. by apply Ho.
  - intros H o Ho. apply elem_of_derive_extent. split; [auto|].
    intros a Ha. split; [auto|].
    apply H, elem_of_derive_intent in Ha as [_ Ha]. by apply Ha.
Qed.

Lemma galois_connection_witness :
  ({[ "fur" ]} : gset string) ⊆ animals_attributes ∧
  ({[ "dog"; "cat" ]} : gset string) ⊆ animals_objects ∧
  (({[ "dog"; "cat" ]} : gset string) ⊆ derive_extent animals {[ "fur" ]} ↔
   ({[ "fur" ]} : gset string) ⊆ derive_intent animals {[ "dog"; "cat" ]}).
Proof.
  assert (H1 : ({[ "fur" ]} : gset string) ⊆ animals_attributes) by by_evaluation.
  assert (H2 : ({[ "dog"; "cat" ]} : gset string) ⊆ animals_objects) by by_evaluation.
  split; [exact H1|]. split; [exact H2|].
  exact (galois_connection animals_objects animals_attributes animals_incidence
           {[ "fur" ]} {[ "dog"; "cat" ]} H1 H2).
Defined.

Lemma derive_extent_closure (objs attrs : gset string) (inc : gset (string * string))
    (X : gset string) :
  X ⊆ attrs →
  derive_extent (FormalContext_init objs attrs inc)
    (closure (FormalContext_init objs attrs inc) X)
  = derive_extent (FormalContext_init objs attrs inc) X.
Proof.
  intros HX. apply set_eq. intros o. rewrite !elem_of_derive_extent. split.
  - intros [Ho H]. split; [done|]. intros a Ha. split; [auto|].
    apply H. by apply closure_extensive.
  - intros [Ho H]. split; [done|]. intros a [Ha Hcl]%elem_of_closure.
    split; [done|]. by apply Hcl.
Qed.

(** X3. Closing a set of declared attributes gives a formal concept: the
    objects that have all attributes of [X], paired with the closure of [X];
    the closure has the same extent as [X]. *)
Theorem closure_gives_concept (objs attrs : gset string) (inc : gset (string * string))
    (X : gset string) (HX : X ⊆ attrs) :
  let ctx := FormalContext_init objs attrs inc in
  is_formal_concept ctx {| extent := derive_extent ctx X; intent := closure ctx X |} ∧
  derive_extent ctx (closure ctx X) = derive_extent ctx X.
Proof.
  simpl. split; [|by apply derive_extent_closure].
  unfold is_formal_concept. simpl. split_and!.
  - apply derive_extent_subseteq.
  - apply closure_subseteq.
  - done.
  - by apply derive_extent_closure.
Qed.

Lemma closure_gives_concept_witness :
  ({[ "fur" ]} : gset string) ⊆ animals_attributes ∧
  is_formal_concept animals
    {| extent := derive_extent animals {[ "fur" ]};
       intent := closure animals {[ "fur" ]} |} ∧
  derive_extent animals (closure animals {[ "fur" ]}) = derive_extent animals {[ "fur" ]}.
Proof.
  assert (H1 : ({[ "fur" ]} : gset string) ⊆ animals_attributes) by by_evaluation.
  split; [exact H1|].
  exact (closure_gives_concept animals_objects animals_attributes animals_incidence
           {[ "fur" ]} H1).
Defined.

(** X4. [is_closed] accepts every closure, and accepts exactly the intents
    of the formal concepts of the context; so it rejects every set that
    holds an undeclared attribute. *)
Theorem is_closed_iff_intent (objs attrs : gset string) (inc : gset (string * string))
    (X : gset string) :
  let ctx := FormalContext_init objs attrs inc in
  is_closed ctx (closure ctx X) = true ∧
  (is_closed ctx X = true ↔ ∃ c, is_formal_concept ctx c ∧ intent c = X) ∧
  (is_closed ctx X = true → X ⊆ attrs).
Proof.
  simpl. unfold is_closed. rewrite !bool_decide_eq_true. split_and!.
  - apply closure_idempotent.
  - split.
    + intros Hcl. exists (concept_of (FormalContext_init objs attrs inc) X).
      split; [|done]. apply is_formal_concept_iff. exists X. split_and!; [|done..].
      rewrite <- Hcl. apply closure_subseteq.
    + intros (c & (I & HI & Hcl & ->)%is_formal_concept_iff & <-). done.
  - intros <-. apply closure_subseteq.
Qed.

(** X25. When [Y] holds an object that the context does not declare,
    [derive_intent] returns the empty set: an undeclared object has no
    entry in the table and counts as an object without attributes. *)
Theorem derive_intent_out_of_domain_object (objs attrs : gset string)
    (inc : gset (string * string)) (Y : gset string)
    (HY : ∃ o, o ∈ Y ∧ o ∉ objs) :
  let ctx := FormalContext_init objs attrs inc in
  derive_intent ctx Y = ∅ ∧
  derive_extent ctx (derive_intent ctx Y) = objects ctx.
Proof.
  destruct HY as (o & Ho & Hn). cbv zeta.
  assert (He : derive_intent (FormalContext_init objs attrs inc) Y = ∅).
  { apply set_eq. intros a. rewrite elem_of_derive_intent. split; [|set_solver].
    intros [_ H]. destruct (H o Ho). done. }
  split; [done|]. rewrite He. reflexivity.
Qed.

Lemma derive_intent_out_of_domain_object_witness :
  (∃ o, o ∈ ({[ "dog"; "cow" ]} : gset string) ∧ o ∉ animals_objects) ∧
  derive_intent animals {[ "dog"; "cow" ]} = ∅ ∧
  derive_extent animals (derive_intent animals {[ "dog"; "cow" ]}) = objects animals.
Proof.
  assert (H : ∃ o, o ∈ ({[ "dog"; "cow" ]} : gset string) ∧ o ∉ animals_objects).
  { exists "cow". split; by_evaluation. }
  split; [exact H|].
  exact (derive_intent_out_of_domain_object animals_objects animals_attributes
           animals_incidence {[ "dog"; "cow" ]} H).
Defined.

(** ** NextClosureAlgorithm *)

(** X5. For every set [A] of declared attributes, closed or not,
    [next_closure] returns without raising; a returned set is the least
    closed set that is lectically above [A]; [None] is returned exactly when
    no closed set is lectically above [A], as for the full attribute set. *)
Theorem next_closure_contract (objs attrs : gset string) (inc : gset (string * string))
    (A : gset string) (HA : A ⊆ attrs) :
  let ctx := FormalContext_init objs attrs inc in
  let self := NextClosureAlgorithm_init ctx in
  (∃ r, next_closure self A = Return r ∧
        (∀ B, r = Some B →
              closure ctx B = B ∧ B ⊆ attrs ∧ lectic_lt (attributes_list self) A B ∧
              ∀ C, C ⊆ attrs → closure ctx C = C → lectic_lt (attributes_list self) A C →
                   C = B ∨ lectic_lt (attributes_list self) B C) ∧
        (r = None ↔
         ∀ C, C ⊆ attrs → closure ctx C = C → ¬ lectic_lt (attributes_list self) A C)) ∧
  next_closure self attrs = Return None.
Proof.
  simpl. split.
  - destruct (next_closure_correct objs attrs inc A HA) as (r & Hr & Hspec).
    exists r. split; [done|]. destruct r as [B|].
    + destruct Hspec as (HB & Hcl & Hlt & Hleast). split.
      * intros B' [= <-]. done.
      * split; [done|]. intros H. by destruct (H B).
    + split; [done|]. done.
  - destruct (next_closure_correct objs attrs inc attrs) as (r & Hr & Hspec); [done|].
    destruct r as [B|]; [|done].
    destruct Hspec as (HB & _ & (i & m & _ & Hn & Hin & _) & _).
    destruct Hn. auto.
Qed.

Lemma next_closure_contract_witness :
  ({[ "swims" ]} : gset string) ⊆ animals_attributes ∧
  ∃ r, next_closure (NextClosureAlgorithm_init animals) {[ "swims" ]} = Return r ∧
       r = Some {[ "legs" ]}.
Proof.
  assert (H1 : ({[ "swims" ]} : gset string) ⊆ animals_attributes) by by_evaluation.
  split; [exact H1|].
  destruct (next_closure_contract animals_objects animals_attributes animals_incidence
              {[ "swims" ]} H1) as [(r & Hr & _) _].
  exists r. split; [exact Hr|].
  assert (Hc : next_closure (NextClosureAlgorithm_init animals) {[ "swims" ]}
               = Return (Some {[ "legs" ]})) by (vm_compute; reflexivity).
  unfold animals in Hc. rewrite Hr in Hc. by injection Hc.
Defined.

Lemma StronglySorted_head_last {A : Type} (R : relation A) (l : list A) :
  StronglySorted R l →
  ∀ x, x ∈ l →
       (∃ h, head l = Some h ∧ (x = h ∨ R h x)) ∧
       (∃ z, last l = Some z ∧ (x = z ∨ R x z)).
Proof.
  induction 1 as [|y l Hs IH Hall]; intros x Hx; [by apply elem_of_nil in Hx|].
  rewrite Forall_forall in Hall. split.
  - exists y. split; [done|]. apply elem_of_cons in Hx as [->|Hx]; auto.
  - destruct l as [|y' l'].
    + exists y. split; [done|]. apply list_elem_of_singleton in Hx. auto.
    + assert (Hin : y' ∈ y' :: l') by left.
      destruct (IH y' Hin) as [_ (z & Hz & _)].
      exists z. split; [by rewrite last_cons, Hz|].
      apply elem_of_cons in Hx as [->|Hx].
      * right. apply Hall. destruct (last_Some (y' :: l') z) as [[l'' Hl] _]; [done|].
        rewrite Hl. apply elem_of_app. right. left.
      * destruct (IH x Hx) as [_ (z' & Hz' & Hxz)]. congruence.
Qed.

(** X6. The list that [generate_all_concepts] returns is never empty: it
    starts with the most general concept, whose extent is the whole object
    set and whose intent is the closure of the empty set, and it ends with
    the most specific concept, whose intent is the whole attribute set. *)
Theorem generate_all_concepts_ends (objs attrs : gset string)
    (inc : gset (string * string)) :
  let ctx := FormalContext_init objs attrs inc in
  ∃ cs, generate_all_concepts (NextClosureAlgorithm_init ctx) = Return cs ∧
        (0 < length cs)%nat ∧
        head cs = Some {| extent := objs; intent := closure ctx ∅ |} ∧
        last cs = Some {| extent := derive_extent ctx attrs; intent := attrs |}.
Proof.
  simpl.
  destruct (generate_all_concepts_returns objs attrs inc)
    as (intents & Hrun & Hiff & Hsorted).
  set (ctx := FormalContext_init objs attrs inc) in *.
  assert (Htop : closure ctx ∅ ∈ intents).
  { apply Hiff. split; [apply closure_subseteq|apply closure_idempotent]. }
  assert (Hbot : attrs ∈ intents).
  { apply Hiff. split; [done|]. apply set_eq. intros a. split.
    - apply closure_subseteq.
    - by apply closure_extensive. }
  destruct (StronglySorted_head_last _ _ Hsorted _ Htop) as [(h & Hh & Hhtop) _].
  destruct (StronglySorted_head_last _ _ Hsorted _ Hbot) as [_ (z & Hz & Hzbot)].
  assert (Hh' : h = closure ctx ∅).
  { destruct Hhtop as [|Hlt]; [done|].
    assert (Hhin : h ∈ intents) by by apply head_Some_elem_of.
    apply Hiff in Hhin as [Hhsub Hhcl].
    destruct (decide (h = closure ctx ∅)) as [|Hne]; [done|]. exfalso.
    apply (lectic_lt_asym _ _ _ Hlt). apply subset_lectic.
    - rewrite <- Hhcl. apply closure_monotone. set_solver.
    - by rewrite list_to_set_sorted.
    - congruence. }
  assert (Hz' : z = attrs).
  { destruct Hzbot as [|Hlt]; [done|].
    assert (Hzin : z ∈ intents).
    { apply last_Some in Hz as [l' ->]. apply elem_of_app. right. left. }
    apply Hiff in Hzin as [Hzsub Hzcl].
    destruct (decide (z = attrs)) as [|Hne]; [done|]. exfalso.
    apply (lectic_lt_asym _ _ _ Hlt). apply subset_lectic; [done| |done].
    by rewrite list_to_set_sorted. }
  assert (Hext : derive_extent ctx (closure ctx ∅) = objs).
  { unfold ctx. rewrite derive_extent_closure by set_solver.
    apply set_eq. intros o. rewrite elem_of_derive_extent. set_solver. }
  subst h z. eexists. split; [exact Hrun|]. split_and!.
  - rewrite length_map. destruct intents; [done|simpl; lia].
  - destruct intents as [|I intents']; [done|]. injection Hh as ->.
    cbn [map head]. unfold concept_of. by rewrite Hext.
  - change (last (concept_of ctx <$> intents) = Some (concept_of ctx attrs)).
    by rewrite fmap_last, Hz.
Qed.

Lemma derive_intent_antitone (objs attrs : gset string) (inc : gset (string * string))
    (Y Y' : gset string) :
  Y ⊆ Y' →
  derive_intent (FormalContext_init objs attrs inc) Y'
  ⊆ derive_intent (FormalContext_init objs attrs inc) Y.
Proof.
  intros HY a [Ha H]%elem_of_derive_intent. apply elem_of_derive_intent. auto.
Qed.

Lemma derive_extent_antitone (objs attrs : gset string) (inc : gset (string * string))
    (X X' : gset string) :
  X ⊆ X' →
  derive_extent (FormalContext_init objs attrs inc) X'
  ⊆ derive_extent (FormalContext_init objs attrs inc) X.
Proof.
  intros HX o [Ho H]%elem_of_derive_extent. apply elem_of_derive_extent. auto.
Qed.

(** X7. What the comment in [ConceptLattice.__init__] states: for formal
    concepts, the extent of [c1] is included in the extent of [c2] iff the
    intent of [c2] is included in the intent of [c1]; hence two formal
    concepts with the same intent, or with the same extent, are equal. *)
Theorem concept_order_duality (objs attrs : gset string) (inc : gset (string * string))
    (c1 c2 : FormalConcept)
    (H1 : is_formal_concept (FormalContext_init objs attrs inc) c1)
    (H2 : is_formal_concept (FormalContext_init objs attrs inc) c2) :
  (extent c1 ⊆ extent c2 ↔ intent c2 ⊆ intent c1) ∧
  (intent c1 = intent c2 ↔ c1 = c2) ∧
  (extent c1 = extent c2 ↔ c1 = c2).
Proof.
  destruct H1 as (He1 & Hi1 & Hd1 & Hx1), H2 as (He2 & Hi2 & Hd2 & Hx2).
  split_and!.
  - split; intros H.
    + rewrite <- Hd1, <- Hd2. by apply derive_intent_antitone.
    + rewrite <- Hx1, <- Hx2. by apply derive_extent_antitone.
  - split; [|by intros ->]. intros H.
    destruct c1 as [e1 i1], c2 as [e2 i2]; simpl in *.
    by rewrite <- Hx1, <- Hx2, H.
  - split; [|by intros ->]. intros H.
    destruct c1 as [e1 i1], c2 as [e2 i2]; simpl in *.
    by rewrite <- Hd1, <- Hd2, H.
Qed.

Lemma concept_order_duality_witness :
  is_formal_concept animals with_fur ∧ is_formal_concept animals with_legs ∧
  (extent with_fur ⊆ extent with_legs ↔ intent with_legs ⊆ intent with_fur) ∧
  (intent with_fur = intent with_legs ↔ with_fur = with_legs) ∧
  (extent with_fur = extent with_legs ↔ with_fur = with_legs).
Proof.
  assert (H1 : is_formal_concept animals with_fur).
  { unfold is_formal_concept. split; [by_evaluation|]. split; [by_evaluation|].
    split; by_evaluation. }
  assert (H2 : is_formal_concept animals with_legs).
  { unfold is_formal_concept. split; [by_evaluation|]. split; [by_evaluation|].
    split; by_evaluation. }
  split; [exact H1|]. split; [exact H2|].
  exact (concept_order_duality animals_objects animals_attributes animals_incidence
           with_fur with_legs H1 H2).
Defined.

(** ** ConceptLattice: the graph *)

Lemma foldl_invariant {A B : Type} (P : A → Prop) (f : A → B → A) (l : list B) (a : A) :
  P a → (∀ a b, b ∈ l → P a → P (f a b)) → P (foldl f a l).
Proof.
  revert a. induction l as [|x l IH]; intros a Ha Hstep; simpl; [done|].
  apply IH.
  - apply Hstep; [left|done].
  - intros a' b Hb. apply Hstep. by right.
Qed.

Lemma elem_of_nodes_add_node (g : DiGraph) (n c : FormalConcept) :
  c ∈ nodes (add_node g n) ↔ c ∈ nodes g ∨ c = n.
Proof.
  unfold add_node. destruct (decide (n ∈ nodes g)) as [Hin|Hin]; simpl.
  - split; [auto|]. intros [?| ->]; done.
  - by rewrite elem_of_app, list_elem_of_singleton.
Qed.

Lemma graph_ok_add_node (cs : list FormalConcept) (g : DiGraph) (n : FormalConcept) :
  n ∈ cs → graph_ok cs g → graph_ok cs (add_node g n).
Proof.
  intros Hn (Hnodes & Hedges & Hsub). unfold graph_ok.
  split_and!.
  - unfold add_node. destruct (decide (n ∈ nodes g)) as [Hin|Hin]; simpl; [done|].
    apply NoDup_app. split_and!; [done| |apply NoDup_singleton].
    intros x Hx ->%list_elem_of_singleton. done.
  - by rewrite edges_add_node.
  - intros c [?| ->]%elem_of_nodes_add_node; auto.
Qed.

Lemma graph_ok_add_edge (cs : list FormalConcept) (g : DiGraph) (u v : FormalConcept) :
  u ∈ cs → v ∈ cs → graph_ok cs g → graph_ok cs (add_edge g u v).
Proof.
  intros Hu Hv Hok.
  assert (Hok' : graph_ok cs (add_node (add_node g u) v))
    by by apply graph_ok_add_node; [|apply graph_ok_add_node].
  unfold add_edge. destruct (decide _) as [Hin|Hin]; [done|].
  destruct Hok' as (Hnodes & Hedges & Hsub). unfold graph_ok. simpl.
  split_and!; [done| |done].
  apply NoDup_app. split_and!; [done| |apply NoDup_singleton].
  intros x Hx ->%list_elem_of_singleton. done.
Qed.

Lemma elem_of_nodes_foldl_add_node (cs : list FormalConcept) (g : DiGraph)
    (c : FormalConcept) :
  c ∈ nodes (foldl add_node g cs) ↔ c ∈ nodes g ∨ c ∈ cs.
Proof.
  revert g. induction cs as [|x cs IH]; intros g; simpl.
  - split; [auto|]. intros [?|?%elem_of_nil]; done.
  - rewrite IH, elem_of_nodes_add_node, elem_of_cons. tauto.
Qed.

Lemma nodes_cover_step (cs : list FormalConcept) (c1 c2 c : FormalConcept) (g : DiGraph) :
  c ∈ nodes g → c ∈ nodes (cover_step cs c1 g c2).
Proof.
  intros Hc. unfold cover_step. repeat destruct (decide _); try done.
  destruct (is_direct c1 c2 cs); [|done].
  unfold add_edge. destruct (decide _); simpl; rewrite !elem_of_nodes_add_node; auto.
Qed.

Lemma graph_ok_cover_step (cs : list FormalConcept) (c1 c2 : FormalConcept) (g : DiGraph) :
  c1 ∈ cs → c2 ∈ cs → graph_ok cs g → graph_ok cs (cover_step cs c1 g c2).
Proof.
  intros H1 H2 Hok. unfold cover_step. repeat destruct (decide _); try done.
  destruct (is_direct c1 c2 cs); [|done]. by apply graph_ok_add_edge.
Qed.

(** The graph of a lattice stores each concept once as a node and each
    covering pair once as an edge. *)
Lemma lattice_graph_ok (cs : list FormalConcept) :
  graph_ok cs (graph (ConceptLattice_init cs)) ∧
  ∀ c, c ∈ cs → c ∈ nodes (graph (ConceptLattice_init cs)).
Proof.
  unfold ConceptLattice_init. simpl.
  apply (foldl_invariant
           (λ g, graph_ok cs g ∧ ∀ c, c ∈ cs → c ∈ nodes g)).
  - split.
    + apply (foldl_invariant (graph_ok cs)).
      * unfold graph_ok, empty_graph. simpl. split_and!; [constructor..|].
        intros c Hc. by apply elem_of_nil in Hc.
      * intros g c Hc Hok. by apply graph_ok_add_node.
    + intros c Hc. apply elem_of_nodes_foldl_add_node. by right.
  - intros g c1 H1 Hg.
    apply (foldl_invariant (λ g, graph_ok cs g ∧ ∀ c, c ∈ cs → c ∈ nodes g)); [done|].
    intros g' c2 H2 [Hok Hall]. split.
    + by apply graph_ok_cover_step.
    + intros c Hc. by apply nodes_cover_step, Hall.
Qed.

(** X8. The graph that [ConceptLattice.__init__] builds has the distinct
    concepts of the list as its nodes, each once, holds every edge once, and
    has edges between concepts of the list only, never from a concept to
    itself. *)
Theorem lattice_graph_well_formed (cs : list FormalConcept) :
  let g := graph (ConceptLattice_init cs) in
  NoDup (nodes g) ∧ (∀ c, c ∈ nodes g ↔ c ∈ cs) ∧
  NoDup (edges g) ∧
  (∀ u v, (u, v) ∈ edges g → u ∈ nodes g ∧ v ∈ nodes g ∧ u ≠ v).
Proof.
  cbv zeta. destruct (lattice_graph_ok cs) as [(Hnodes & Hedges & Hsub) Hall].
  split_and!; [done| |done|].
  - intros c. split; auto.
  - intros u v (Hu & Hv & Hne & _)%elem_of_lattice_edges. auto.
Qed.

Lemma path_target_in (cs : list FormalConcept) (c1 c2 : FormalConcept) :
  path (graph (ConceptLattice_init cs)) c1 c2 → c1 ∈ cs ∧ c2 ∈ cs.
Proof.
  induction 1 as [u v He|u v w He Hp IH].
  - apply elem_of_lattice_edges in He. tauto.
  - apply elem_of_lattice_edges in He. tauto.
Qed.

(** X9. The covering graph is a Hasse diagram: it has no cycle, and no edge
    is implied by the others, that is, no edge joins two concepts that a
    path through a third concept joins. *)
Theorem lattice_graph_hasse (cs : list FormalConcept) :
  let g := graph (ConceptLattice_init cs) in
  (∀ c, ¬ path g c c) ∧
  (∀ u v, (u, v) ∈ edges g → (v, u) ∉ edges g) ∧
  (∀ c1 c2 c3, path g c1 c3 → path g c3 c2 → (c1, c2) ∉ edges g).
Proof.
  cbv zeta. split_and!.
  - intros c Hp. apply path_superset in Hp. by apply (irreflexivity (⊂) (intent c)).
  - intros u v (_ & _ & _ & H1 & _)%elem_of_lattice_edges
                 (_ & _ & _ & H2 & _)%elem_of_lattice_edges.
    apply (irreflexivity (⊂) (intent u)). by transitivity (intent v).
  - intros c1 c2 c3 H13 H32 (_ & _ & _ & _ & Hdirect)%elem_of_lattice_edges.
    apply (Hdirect c3).
    + by apply path_target_in in H13 as [_ ?].
    + split; by eapply path_superset.
Qed.

(** ** ConceptLattice: the metrics *)

Lemma Qdiv_inject_Z_bounds (a b : Z) :
  (0 ≤ a)%Z → (0 < b)%Z →
  (0 <= inject_Z a / inject_Z b)%Q ∧
  ((a < b)%Z → (inject_Z a / inject_Z b < 1)%Q) ∧
  ((a ≤ b)%Z → (inject_Z a / inject_Z b <= 1)%Q) ∧
  ((inject_Z a / inject_Z b == 1)%Q ↔ a = b).
Proof.
  intros Ha Hb.
  assert (Hb' : (0 < inject_Z b)%Q) by (change 0%Q with (inject_Z 0); by rewrite <- Zlt_Qlt).
  split_and!.
  - apply Qle_shift_div_l; [done|]. rewrite Qmult_0_l.
    change 0%Q with (inject_Z 0). by rewrite <- Zle_Qle.
  - intros Hlt. apply Qlt_shift_div_r; [done|]. rewrite Qmult_1_l. by rewrite <- Zlt_Qlt.
  - intros Hle. apply Qle_shift_div_r; [done|]. rewrite Qmult_1_l. by rewrite <- Zle_Qle.
  - destruct b as [|p|p]; [lia| |lia]. unfold Qeq, Qdiv, Qmult, Qinv, inject_Z. simpl.
    rewrite ?Z.mul_1_r, ?Pos.mul_1_l. lia.
Qed.

(** A lattice of [n] concepts has fewer than [n * n] edges. *)
Lemma number_of_edges_bound (cs : list FormalConcept) :
  cs ≠ [] →
  (number_of_edges (graph (ConceptLattice_init cs)) < length cs * length cs)%nat.
Proof.
  intros Hne. unfold number_of_edges.
  destruct (lattice_graph_ok cs) as [(Hnodes & Hedges & Hsub) Hall].
  set (g := graph (ConceptLattice_init cs)) in *.
  assert (Hm : (length (nodes g) ≤ length cs)%nat).
  { by apply submseteq_length, NoDup_submseteq. }
  assert (Hle : (length (edges g) ≤
                 length (filter (λ p : FormalConcept * FormalConcept, p.1 ≠ p.2)
                                (cprod (nodes g) (nodes g))))%nat).
  { apply submseteq_length, NoDup_submseteq; [done|].
    intros [u v] (Hu & Hv & Huv & _)%elem_of_lattice_edges.
    apply list_elem_of_filter. split; [done|]. apply list_elem_of_cprod. simpl. auto. }
  destruct cs as [|c0 cs']; [done|].
  assert (Hc0 : c0 ∈ nodes g) by (apply Hall; left).
  assert (Hlt : (length (filter (λ p : FormalConcept * FormalConcept, p.1 ≠ p.2)
                                (cprod (nodes g) (nodes g)))
                 < length (cprod (nodes g) (nodes g)))%nat).
  { apply (length_filter_lt _ _ (c0, c0)); [|simpl; auto].
    apply list_elem_of_cprod. simpl. auto. }
  rewrite list_cprod_list_prod, length_prod in Hlt. rewrite list_cprod_list_prod in Hle.
  assert (length (nodes g) * length (nodes g) ≤ length (c0 :: cs') * length (c0 :: cs'))%nat
    by by apply Nat.mul_le_mono.
  lia.
Qed.

(** X10. The density of a lattice lies in [0, 1) and is 0 for a lattice of
    at most one concept; in particular the assertion [0 <= density <= 1] of
    the test suite holds for every lattice. *)
Theorem calculate_density_bounds (cs : list FormalConcept) :
  let d := calculate_density (ConceptLattice_init cs) in
  (0 <= d)%Q ∧ (d < 1)%Q ∧ (d <= 1)%Q ∧ ((length cs ≤ 1)%nat → (d == 0)%Q).
Proof.
  cbv zeta. unfold calculate_density.
  change (concepts (ConceptLattice_init cs)) with cs.
  destruct (decide (length cs = 0%nat)) as [Hz|Hz].
  { split_and!; done. }
  assert (Hne : cs ≠ []) by (by destruct cs).
  pose proof (number_of_edges_bound cs Hne) as Hlt.
  set (E := number_of_edges (graph (ConceptLattice_init cs))) in *.
  destruct (Qdiv_inject_Z_bounds (Z.of_nat E) (Z.of_nat (length cs) ^ 2))
    as (H0 & H1 & H2 & _); [lia|nia|].
  split_and!; [done|apply H1; nia|apply H2; nia|].
  intros Hone.
  assert (HE : E = 0%nat).
  { unfold E, number_of_edges.
    destruct (edges (graph (ConceptLattice_init cs))) as [|[u v] es] eqn:Hes; [done|].
    assert (Huv : (u, v) ∈ edges (graph (ConceptLattice_init cs))) by (rewrite Hes; left).
    apply elem_of_lattice_edges in Huv as (Hu & Hv & Huv & _).
    destruct cs as [|c [|c' cs']]; simpl in *; [done| |lia].
    apply list_elem_of_singleton in Hu, Hv. congruence. }
  rewrite HE. simpl. unfold Qdiv. by rewrite Qmult_0_l.
Qed.

(** ** Top and bottom of a generated lattice *)

Lemma get_bottom_returns (cs : list FormalConcept) :
  cs ≠ [] →
  ∃ c, get_bottom (ConceptLattice_init cs) = Return (Some c) ∧ c ∈ cs ∧
       ∀ c', c' ∈ cs → (size (intent c') ≤ size (intent c))%nat.
Proof.
  intros Hne. unfold get_bottom; simpl. destruct cs as [|c0 cs]; [done|]. simpl.
  set (m := foldl Nat.max (size (intent c0)) (map (λ c, size (intent c)) cs)).
  destruct (get_bottom_loop_Some m (c0 :: cs)) as (c & Hc & Hin & Hsz).
  { apply (foldl_max_in (map (λ c, size (intent c)) cs) (size (intent c0))). }
  exists c. simpl in Hc. rewrite Hc. split; [done|]. split; [done|].
  intros c' Hc'. rewrite Hsz.
  destruct (foldl_max_ge (map (λ c, size (intent c)) cs) (size (intent c0))) as [H1 H2].
  apply elem_of_cons in Hc' as [->|Hc']; [done|].
  apply H2. apply list_elem_of_fmap. by exists c'.
Qed.

(** X11. On the lattice of the generated concepts, [get_bottom] returns the
    concept whose intent is the whole attribute set and never raises;
    [get_top] returns the concept of all objects when no attribute is common
    to all objects, and [None] otherwise. *)
Theorem generated_top_bottom (objs attrs : gset string) (inc : gset (string * string)) :
  let ctx := FormalContext_init objs attrs inc in
  ∃ cs, generate_all_concepts (NextClosureAlgorithm_init ctx) = Return cs ∧
        get_bottom (ConceptLattice_init cs)
        = Return (Some {| extent := derive_extent ctx attrs; intent := attrs |}) ∧
        get_top (ConceptLattice_init cs)
        = if decide (closure ctx ∅ = ∅)
          then Some {| extent := objs; intent := ∅ |} else None.
Proof.
  cbv zeta.
  destruct (generate_all_concepts_returns objs attrs inc)
    as (intents & Hrun & Hiff & Hsorted).
  set (ctx := FormalContext_init objs attrs inc) in *.
  eexists. split; [exact Hrun|].
  assert (Hin : ∀ c, c ∈ map (concept_of ctx) intents ↔
                     ∃ I, c = concept_of ctx I ∧ I ⊆ attrs ∧ closure ctx I = I).
  { intros c. rewrite list_elem_of_fmap. split.
    - intros (I & -> & HI%Hiff). by exists I.
    - intros (I & -> & HI). exists I. split; [done|]. by apply Hiff. }
  assert (Hbot : concept_of ctx attrs ∈ map (concept_of ctx) intents).
  { apply Hin. exists attrs. split_and!; [done..|].
    apply set_eq. intros a. split; [apply closure_subseteq|by apply closure_extensive]. }
  split.
  - destruct (get_bottom_returns (map (concept_of ctx) intents)) as (c & -> & Hc & Hmax).
    { intros Hnil. rewrite Hnil in Hbot. by apply elem_of_nil in Hbot. }
    do 2 f_equal. apply Hin in Hc as (I & -> & HI & Hcl).
    specialize (Hmax _ Hbot). simpl in Hmax.
    assert (I = attrs) as ->; [|done].
    apply set_subseteq_size_eq; [done|]. apply subseteq_size in HI. lia.
  - unfold get_top. simpl.
    destruct (decide (closure ctx ∅ = ∅)) as [Hcl|Hcl].
    + destruct (get_top_loop (map (concept_of ctx) intents)) as [c|] eqn:Htop.
      * apply get_top_loop_Some in Htop as [Hc Hempty].
        apply Hin in Hc as (I & -> & HI & HIcl). simpl in Hempty. subst I.
        reflexivity.
      * exfalso. rewrite get_top_loop_None in Htop.
        apply (Htop (concept_of ctx ∅)); [|done].
        apply Hin. exists ∅. split_and!; [done|set_solver|done].
    + apply get_top_loop_None. intros c (I & -> & HI & HIcl)%Hin. simpl.
      intros ->. done.
Qed.

(** ** Irreducible concepts *)

Lemma find_irreducibles_spec (self : ConceptLattice) (c : FormalConcept) :
  (c ∈ meet_irreducible (find_irreducibles self) ↔
   c ∈ concepts self ∧ length (successors (graph self) c) = 1%nat) ∧
  (c ∈ join_irreducible (find_irreducibles self) ↔
   c ∈ concepts self ∧ length (predecessors (graph self) c) = 1%nat).
Proof.
  unfold find_irreducibles.
  induction (concepts self) as [|x l IH] using rev_ind; simpl.
  - split; (split; [by intros ?%elem_of_nil|by intros [?%elem_of_nil _]]).
  - rewrite foldl_snoc. simpl. destruct IH as [IHm IHj].
    split.
    + destruct (decide (length (successors (graph self) x) = 1%nat)) as [H1|H1].
      * rewrite !elem_of_app, !list_elem_of_singleton, IHm. naive_solver.
      * rewrite elem_of_app, list_elem_of_singleton, IHm. naive_solver.
    + destruct (decide (length (predecessors (graph self) x) = 1%nat)) as [H1|H1].
      * rewrite !elem_of_app, !list_elem_of_singleton, IHj. naive_solver.
      * rewrite elem_of_app, list_elem_of_singleton, IHj. naive_solver.
Qed.

Lemma length_one_unique {A : Type} (l : list A) :
  NoDup l → (length l = 1%nat ↔ ∃ p, ∀ q, q ∈ l ↔ q = p).
Proof.
  intros Hnd. split.
  - destruct l as [|p [|p' l']]; simpl; try done. intros _. exists p.
    intros q. by rewrite list_elem_of_singleton.
  - intros (p & Hp). destruct l as [|x [|y l']]; simpl.
    + exfalso. by apply (elem_of_nil p), Hp.
    + done.
    + exfalso. apply NoDup_cons in Hnd as [Hx _]. apply Hx.
      assert (x = p) as -> by (apply Hp; left).
      assert (y = p) as -> by (apply Hp; right; left). left.
Qed.

(** X12. [find_irreducibles] lists as meet-irreducible exactly the concepts
    of the lattice from which exactly one edge of the covering graph leaves,
    and as join-irreducible exactly those at which exactly one edge
    arrives. *)
Theorem find_irreducibles_covers (cs : list FormalConcept) (c : FormalConcept) :
  let lattice := ConceptLattice_init cs in
  let g := graph lattice in
  (c ∈ meet_irreducible (find_irreducibles lattice) ↔
   c ∈ cs ∧ ∃ p, ∀ q, (c, q) ∈ edges g ↔ q = p) ∧
  (c ∈ join_irreducible (find_irreducibles lattice) ↔
   c ∈ cs ∧ ∃ p, ∀ q, (q, c) ∈ edges g ↔ q = p).
Proof.
  cbv zeta. destruct (find_irreducibles_spec (ConceptLattice_init cs) c) as [Hm Hj].
  destruct (lattice_graph_ok cs) as [(_ & Hedges & _) _].
  set (g := graph (ConceptLattice_init cs)) in *.
  assert (Hs : ∀ q, q ∈ successors g c ↔ (c, q) ∈ edges g).
  { intros q. unfold successors. rewrite list_elem_of_fmap. split.
    - intros ([u v] & -> & [Hu Hin]%list_elem_of_filter). simpl in *. by subst.
    - intros Hin. exists (c, q). split; [done|]. by apply list_elem_of_filter. }
  assert (Hp : ∀ q, q ∈ predecessors g c ↔ (q, c) ∈ edges g).
  { intros q. unfold predecessors. rewrite list_elem_of_fmap. split.
    - intros ([u v] & -> & [Hu Hin]%list_elem_of_filter). simpl in *. by subst.
    - intros Hin. exists (q, c). split; [done|]. by apply list_elem_of_filter. }
  assert (Hnds : NoDup (successors g c)).
  { unfold successors. apply NoDup_fmap_2_strong; [|by apply NoDup_filter].
    intros [u1 v1] [u2 v2] [H1 _]%list_elem_of_filter [H2 _]%list_elem_of_filter.
    simpl in *. congruence. }
  assert (Hndp : NoDup (predecessors g c)).
  { unfold predecessors. apply NoDup_fmap_2_strong; [|by apply NoDup_filter].
    intros [u1 v1] [u2 v2] [H1 _]%list_elem_of_filter [H2 _]%list_elem_of_filter.
    simpl in *. congruence. }
  split.
  - rewrite Hm. change (concepts (ConceptLattice_init cs)) with cs.
    rewrite (length_one_unique _ Hnds). by setoid_rewrite Hs.
  - rewrite Hj. change (concepts (ConceptLattice_init cs)) with cs.
    rewrite (length_one_unique _ Hndp). by setoid_rewrite Hp.
Qed.

(** ** The stability index, as the code computes it *)

(** X13. [calculate_stability_index] returns 1 for a concept with an empty
    extent without drawing; otherwise, whatever the generator draws, it
    raises [ZeroDivisionError] for [samples = 0], returns a number equal to
    1 for positive [samples] and a number equal to 0 for negative
    [samples]. *)
Theorem calculate_stability_index_behaviour {G : Type} (randint : Z → Z → G → Z * G)
    (sample : list string → Z → G → list string * G) (self : ConceptLattice)
    (concept : FormalConcept) (samples : Z) (g : G) :
  let result := calculate_stability_index randint sample self concept samples g in
  (extent concept = ∅ → result = (Return 1%Q, g)) ∧
  (extent concept ≠ ∅ → samples = 0%Z → result.1 = Raise ZeroDivisionError) ∧
  (extent concept ≠ ∅ → (0 < samples)%Z → ∃ q, result.1 = Return q ∧ (q == 1)%Q) ∧
  (extent concept ≠ ∅ → (samples < 0)%Z → ∃ q, result.1 = Return q ∧ (q == 0)%Q).
Proof.
  cbv zeta. unfold calculate_stability_index.
  destruct (decide (size (extent concept) = 0%nat)) as [Hz|Hz].
  { apply size_empty_iff, leibniz_equiv in Hz. split_and!; done. }
  assert (Hne : extent concept ≠ ∅).
  { intros He. apply Hz. by rewrite He, size_empty. }
  pose proof (stability_loop_count randint sample (Z.to_nat samples)
                (elements (extent concept)) 0 g) as Hcount.
  destruct (stability_loop randint sample (Z.to_nat samples)
              (elements (extent concept)) 0 g) as [preserved_count g'].
  simpl in Hcount. split_and!; [done|..].
  - intros _ ->. done.
  - intros _ Hpos. destruct (decide (samples = 0%Z)); [lia|]. simpl.
    eexists. split; [done|].
    apply Qdiv_inject_Z_bounds; lia.
  - intros _ Hneg. destruct (decide (samples = 0%Z)); [lia|]. simpl.
    eexists. split; [done|].
    assert (preserved_count = 0%Z) as -> by lia.
    unfold Qdiv. by rewrite Qmult_0_l.
Qed.

(** ** Relationships of a generated lattice *)

Lemma path_successors (g : DiGraph) (u v : FormalConcept) :
  path g u v → successors g u ≠ [].
Proof.
  intros Hp.
  assert (He : ∃ w, (u, w) ∈ edges g) by (destruct Hp; eauto).
  destruct He as [w Hw]. unfold successors. intros Hnil.
  assert (Hin : w ∈ (filter (λ e, e.1 = u) (edges g)).*2).
  { apply list_elem_of_fmap. exists (u, w). split; [done|]. by apply list_elem_of_filter. }
  rewrite Hnil in Hin. by apply elem_of_nil in Hin.
Qed.

Lemma successors_edge (g : DiGraph) (u : FormalConcept) :
  successors g u ≠ [] → ∃ w, (u, w) ∈ edges g.
Proof.
  unfold successors. destruct (filter (λ e, e.1 = u) (edges g)) as [|[u' w] l] eqn:Hf; [done|].
  intros _. exists w.
  assert (Hin : (u', w) ∈ filter (λ e, e.1 = u) (edges g)) by (rewrite Hf; left).
  apply list_elem_of_filter in Hin as [Hu Hin]. simpl in Hu. by subst.
Qed.

(** The relationships of the lattice of a context are all the pairs of
    distinct declared attributes, unless the context has one concept only. *)
Lemma generated_relationships_spec (objs attrs : gset string)
    (inc : gset (string * string)) :
  ∃ cs, generate_all_concepts (NextClosureAlgorithm_init (FormalContext_init objs attrs inc))
        = Return cs ∧
        ∀ a b, (a, b) ∈ extract_relationships (ConceptLattice_init cs) ↔
               closure (FormalContext_init objs attrs inc) ∅ ≠ attrs ∧
               a ∈ attrs ∧ b ∈ attrs ∧ a ≠ b.
Proof.
  destruct (generate_all_concepts_returns objs attrs inc)
    as (intents & Hrun & Hiff & Hsorted).
  set (ctx := FormalContext_init objs attrs inc) in *.
  eexists. split; [exact Hrun|].
  set (cs := map (concept_of ctx) intents).
  assert (Hin : ∀ c, c ∈ cs ↔ ∃ I, c = concept_of ctx I ∧ I ⊆ attrs ∧ closure ctx I = I).
  { intros c. unfold cs. rewrite list_elem_of_fmap. split.
    - intros (I & -> & HI%Hiff). by exists I.
    - intros (I & -> & HI). exists I. split; [done|]. by apply Hiff. }
  intros a b. rewrite elem_of_extract_relationships. simpl. split.
  - intros (c & Hc & Hsucc & Ha & Hb & Hab).
    apply Hin in Hc as (I & -> & HI & HIcl). simpl in *.
    split_and!; [|auto..].
    apply successors_edge in Hsucc as [w Hw].
    apply elem_of_lattice_edges in Hw as (_ & Hwin & _ & Hsub & _).
    apply Hin in Hwin as (J & -> & HJ & HJcl). simpl in Hsub.
    intros Htop.
    assert (Hall : attrs ⊆ J).
    { rewrite <- Htop, <- HJcl. apply closure_monotone. set_solver. }
    destruct Hsub as [_ Hn]. apply Hn. set_solver.
  - intros (Htop & Ha & Hb & Hab). exists (concept_of ctx attrs).
    assert (Hbot : concept_of ctx attrs ∈ cs).
    { apply Hin. exists attrs. split_and!; [done..|].
      apply set_eq. intros x. split; [apply closure_subseteq|by apply closure_extensive]. }
    assert (Hfirst : concept_of ctx (closure ctx ∅) ∈ cs).
    { apply Hin. exists (closure ctx ∅).
      split_and!; [done|apply closure_subseteq|apply closure_idempotent]. }
    split_and!; [done| |done..].
    apply (path_successors _ _ (concept_of ctx (closure ctx ∅))).
    apply (superset_path_aux cs (size attrs)); [done..| |simpl; lia].
    simpl. split; [apply closure_subseteq|].
    intros Hsub. apply Htop. apply set_eq. intros x. split; [apply closure_subseteq|auto].
Qed.

(** X14. For the concepts generated from a context, [extract_relationships]
    returns every ordered pair of distinct declared attributes when the
    context has more than one concept, and nothing when it has a single
    concept, that is, when every object has every attribute. *)
Theorem generated_relationships (objs attrs : gset string)
    (inc : gset (string * string)) :
  let ctx := FormalContext_init objs attrs inc in
  ∃ cs, generate_all_concepts (NextClosureAlgorithm_init ctx) = Return cs ∧
        (length cs = 1%nat ↔ closure ctx ∅ = attrs) ∧
        ∀ a b, (a, b) ∈ extract_relationships (ConceptLattice_init cs) ↔
               length cs ≠ 1%nat ∧ a ∈ attrs ∧ b ∈ attrs ∧ a ≠ b.
Proof.
  cbv zeta.
  destruct (generated_relationships_spec objs attrs inc) as (cs & Hrun & Hrel).
  destruct (generate_all_concepts_returns objs attrs inc)
    as (intents & Hrun' & Hiff & Hsorted).
  rewrite Hrun in Hrun'. injection Hrun' as ->.
  pose proof (StronglySorted_lectic_NoDup attrs intents Hsorted) as Hnd.
  set (ctx := FormalContext_init objs attrs inc) in *.
  assert (Htop : closure ctx ∅ ∈ intents).
  { apply Hiff. split; [apply closure_subseteq|apply closure_idempotent]. }
  assert (Hbot : attrs ∈ intents).
  { apply Hiff. split; [done|]. apply set_eq. intros a. split.
    - apply closure_subseteq.
    - by apply closure_extensive. }
  assert (Hone : length (map (concept_of ctx) intents) = 1%nat ↔ closure ctx ∅ = attrs).
  { rewrite length_map. split.
    - destruct intents as [|I [|J l]]; simpl; try done. intros _.
      apply list_elem_of_singleton in Htop, Hbot. congruence.
    - intros Heq. destruct intents as [|I [|J l]]; simpl; [by apply elem_of_nil in Htop|done|].
      exfalso.
      assert (HI : I = attrs).
      { assert (HIin : I ∈ I :: J :: l) by left. apply Hiff in HIin as [HIs HIc].
        apply set_eq. intros x. split; [auto|]. intros Hx. rewrite <- HIc.
        apply (closure_monotone objs attrs inc ∅ I); [set_solver|]. fold ctx.
        by rewrite Heq. }
      assert (HJ : J = attrs).
      { assert (HJin : J ∈ I :: J :: l) by (right; left). apply Hiff in HJin as [HJs HJc].
        apply set_eq. intros x. split; [auto|]. intros Hx. rewrite <- HJc.
        apply (closure_monotone objs attrs inc ∅ J); [set_solver|]. fold ctx.
        by rewrite Heq. }
      subst I J. apply NoDup_cons in Hnd as [Hn _]. apply Hn. left. }
  eexists. split; [exact Hrun|]. split; [exact Hone|].
  intros a b. rewrite Hrel, Hone. tauto.
Qed.

(** ** Verification in terms of the two contexts *)

Lemma lattice_of_text_relationships (text : string) :
  ∃ lattice, lattice_of_text text = Return lattice ∧
    ∀ a b, (a, b) ∈ extract_relationships lattice ↔
           closure (text_to_context text) ∅ ≠ attributes (text_to_context text) ∧
           a ∈ attributes (text_to_context text) ∧
           b ∈ attributes (text_to_context text) ∧ a ≠ b.
Proof.
  unfold lattice_of_text.
  destruct (text_to_context_constructed text) as (objs & attrs & inc & ->).
  destruct (generated_relationships_spec objs attrs inc) as (cs & -> & Hrel).
  eexists. split; [done|]. exact Hrel.
Qed.

(** The facts about the result of [verify] that the properties below share. *)
Lemma verify_result_facts (self : TruthVerifier) (citations : list string)
    (answer : string) :
  let gt_ctx := text_to_context (join_space citations) in
  let ans_ctx := text_to_context answer in
  ∃ self' result,
    verify self citations answer = Return (self', result) ∧
    (∀ a b, (a, b) ∈ hallucinated_edges result ↔
            closure gt_ctx ∅ = attributes gt_ctx ∧
            closure ans_ctx ∅ ≠ attributes ans_ctx ∧ a ≠ b ∧
            a ∈ attributes ans_ctx ∧ b ∈ attributes ans_ctx ∧
            a ∈ attributes gt_ctx ∧ b ∈ attributes gt_ctx) ∧
    NoDup (hallucinated_edges result) ∧
    (is_valid result = true ↔ hallucinated_edges result = []) ∧
    (0 <= confidence result)%Q ∧ (confidence result <= 1)%Q ∧
    ((confidence result == 1)%Q ↔ hallucinated_edges result = []).
Proof.
  cbv zeta.
  destruct (verify_spec self citations answer) as (gt & ans & Hgt & Hans & Hv).
  destruct (lattice_of_text_relationships (join_space citations)) as (gt' & Hgt' & Hgrel).
  destruct (lattice_of_text_relationships answer) as (ans' & Hans' & Harel).
  rewrite Hgt in Hgt'. injection Hgt' as <-. rewrite Hans in Hans'. injection Hans' as <-.
  cbv zeta in Hv. eexists _, _. split; [exact Hv|].
  cbn [hallucinated_edges is_valid confidence].
  set (gt_ctx := text_to_context (join_space citations)) in *.
  set (ans_ctx := text_to_context answer) in *.
  set (h := filter (flagged (extract_relationships gt) (attributes gt_ctx))
                   (elements (extract_relationships ans))).
  assert (Hlen : (length h ≤ size (extract_relationships ans))%nat).
  { unfold h, size, set_size. simpl. apply length_filter. }
  split_and!; fold h.
  - intros a b. unfold h. rewrite list_elem_of_filter, elem_of_elements.
    unfold flagged. simpl. rewrite Hgrel, Harel.
    destruct (decide (closure gt_ctx ∅ = attributes gt_ctx)); naive_solver.
  - apply NoDup_filter, NoDup_elements.
  - rewrite bool_decide_eq_true. apply length_zero_iff_nil.
  - destruct (decide (size (extract_relationships ans) = 0%nat)); [done|].
    destruct (Qdiv_inject_Z_bounds
                (Z.of_nat (size (extract_relationships ans)) - Z.of_nat (length h))
                (Z.of_nat (size (extract_relationships ans)))) as (H0 & _); [lia..|done].
  - destruct (decide (size (extract_relationships ans) = 0%nat)); [done|].
    destruct (Qdiv_inject_Z_bounds
                (Z.of_nat (size (extract_relationships ans)) - Z.of_nat (length h))
                (Z.of_nat (size (extract_relationships ans)))) as (_ & _ & H1 & _);
      [lia..|]. apply H1. lia.
  - destruct (decide (size (extract_relationships ans) = 0%nat)) as [Hz|Hz].
    + split; [|done]. intros _. apply length_zero_iff_nil. lia.
    + rewrite <- length_zero_iff_nil.
      destruct (Qdiv_inject_Z_bounds
                  (Z.of_nat (size (extract_relationships ans)) - Z.of_nat (length h))
                  (Z.of_nat (size (extract_relationships ans)))) as (_ & _ & _ & ->);
        lia.
Qed.

(** X15. [verify] flags a pair exactly when the source context has a single
    concept, the answer context has more than one, and the pair consists of
    two distinct attributes that both contexts declare.  No pair is flagged
    twice. *)
Theorem verify_flags_by_context (self : TruthVerifier) (citations : list string)
    (answer : string) :
  let gt_ctx := text_to_context (join_space citations) in
  let ans_ctx := text_to_context answer in
  ∃ self' result,
    verify self citations answer = Return (self', result) ∧
    NoDup (hallucinated_edges result) ∧
    ∀ a b, (a, b) ∈ hallucinated_edges result ↔
           closure gt_ctx ∅ = attributes gt_ctx ∧
           closure ans_ctx ∅ ≠ attributes ans_ctx ∧ a ≠ b ∧
           a ∈ attributes ans_ctx ∧ b ∈ attributes ans_ctx ∧
           a ∈ attributes gt_ctx ∧ b ∈ attributes gt_ctx.
Proof.
  cbv zeta. destruct (verify_result_facts self citations answer)
    as (self' & result & Hv & Hiff & Hnd & _).
  exists self', result. done.
Qed.

(** [verify] flags nothing when the source context has several concepts or
    the answer context has a single one. *)
Lemma verify_valid_of_contexts (self : TruthVerifier) (citations : list string)
    (answer : string) :
  closure (text_to_context (join_space citations)) ∅
  ≠ attributes (text_to_context (join_space citations)) ∨
  closure (text_to_context answer) ∅ = attributes (text_to_context answer) →
  ∃ self' result report,
    verify self citations answer = Return (self', result) ∧
    hallucinated_edges result = [] ∧ is_valid result = true ∧
    (confidence result == 1)%Q ∧
    detect citations answer = Return report ∧
    status report = "VALID" ∧ hallucinations report = [].
Proof.
  intros H.
  destruct (verify_result_facts self citations answer)
    as (self' & result & Hv & Hiff & _ & Hvalid & _ & _ & Hconf).
  destruct (verify_result_facts TruthVerifier_init citations answer)
    as (self0 & result0 & Hv0 & Hiff0 & _ & Hvalid0 & _).
  destruct (detect_spec citations answer) as (self1 & result1 & Hv1 & Hd).
  rewrite Hv0 in Hv1. injection Hv1 as <- <-.
  assert (Hnil : ∀ r : IsoResult,
            (∀ a b, (a, b) ∈ hallucinated_edges r →
                    closure (text_to_context (join_space citations)) ∅
                    = attributes (text_to_context (join_space citations)) ∧
                    closure (text_to_context answer) ∅
                    ≠ attributes (text_to_context answer)) →
            hallucinated_edges r = []).
  { intros r Hr. destruct (hallucinated_edges r) as [|[a b] l] eqn:E; [done|].
    exfalso. destruct (Hr a b) as [H1 H2]; [left|]. destruct H as [H|H]; auto. }
  assert (He : hallucinated_edges result = []).
  { apply Hnil. intros a b Hab. apply Hiff in Hab. tauto. }
  assert (He0 : hallucinated_edges result0 = []).
  { apply Hnil. intros a b Hab. apply Hiff0 in Hab. tauto. }
  eexists self', result, _. split_and!; [done|done|by apply Hvalid|by apply Hconf|exact Hd|..].
  - simpl. by rewrite (proj2 Hvalid0 He0).
  - simpl. by rewrite He0.
Qed.

(** X16. When the sources do not all carry the same words, so that their
    context has more than one concept, [verify] flags nothing whatever the
    answer says: the result is valid with a confidence equal to 1 and
    [detect] reports VALID. *)
Theorem verify_blind_for_varied_sources (self : TruthVerifier)
    (citations : list string) (answer : string)
    (H : closure (text_to_context (join_space citations)) ∅
         ≠ attributes (text_to_context (join_space citations))) :
  ∃ self' result report,
    verify self citations answer = Return (self', result) ∧
    hallucinated_edges result = [] ∧ is_valid result = true ∧
    (confidence result == 1)%Q ∧
    detect citations answer = Return report ∧
    status report = "VALID" ∧ hallucinations report = [].
Proof. apply verify_valid_of_contexts. by left. Qed.

Lemma verify_blind_for_varied_sources_witness :
  let citations := ["The sky is blue."; "Clouds are white."] in
  let answer := "The sky is blue and green. Stars are visible during the day." in
  closure (text_to_context (join_space citations)) ∅
  ≠ attributes (text_to_context (join_space citations)) ∧
  ∃ self' result report,
    verify TruthVerifier_init citations answer = Return (self', result) ∧
    hallucinated_edges result = [] ∧ is_valid result = true ∧
    (confidence result == 1)%Q ∧
    detect citations answer = Return report ∧
    status report = "VALID" ∧ hallucinations report = [].
Proof.
  intros citations answer.
  assert (H : closure (text_to_context (join_space citations)) ∅
              ≠ attributes (text_to_context (join_space citations))) by by_evaluation.
  split; [exact H|].
  exact (verify_blind_for_varied_sources TruthVerifier_init citations answer H).
Defined.

(** X17. [verify] overwrites the four fields of the verifier: its outcome
    does not depend on the state the verifier was in, and verifying again
    from the state it leaves gives the same verifier and the same result. *)
Theorem verify_stateless (self1 self2 : TruthVerifier) (citations : list string)
    (answer : string) :
  ∃ self' result,
    verify self1 citations answer = Return (self', result) ∧
    verify self2 citations answer = Return (self', result) ∧
    verify self' citations answer = Return (self', result) ∧
    ground_truth_context self' = Some (text_to_context (join_space citations)) ∧
    answer_context self' = Some (text_to_context answer) ∧
    is_Some (ground_truth_lattice self') ∧ is_Some (answer_lattice self').
Proof.
  destruct (verify_spec self1 citations answer) as (gt & ans & Hgt & Hans & Hv1).
  destruct (verify_spec self2 citations answer) as (gt2 & ans2 & Hgt2 & Hans2 & Hv2).
  rewrite Hgt in Hgt2. injection Hgt2 as <-. rewrite Hans in Hans2. injection Hans2 as <-.
  cbv zeta in Hv1, Hv2.
  eexists _, _. split; [exact Hv1|]. split; [exact Hv2|]. split.
  - match goal with |- verify ?s _ _ = _ =>
      destruct (verify_spec s citations answer) as (gt3 & ans3 & Hgt3 & Hans3 & Hv3) end.
    rewrite Hgt in Hgt3. injection Hgt3 as <-. rewrite Hans in Hans3. injection Hans3 as <-.
    exact Hv3.
  - simpl. split_and!; eauto.
Qed.

(** X18. The confidence that [verify] returns lies between 0 and 1, and
    equals 1 exactly when the result is valid. *)
Theorem verify_confidence_range (self : TruthVerifier) (citations : list string)
    (answer : string) :
  ∃ self' result,
    verify self citations answer = Return (self', result) ∧
    (0 <= confidence result)%Q ∧ (confidence result <= 1)%Q ∧
    ((confidence result == 1)%Q ↔ is_valid result = true).
Proof.
  destruct (verify_result_facts self citations answer)
    as (self' & result & Hv & _ & _ & Hvalid & H0 & H1 & Hconf).
  exists self', result. split_and!; [done..|]. by rewrite Hvalid, Hconf.
Qed.

(** X19. [detect] reports VALID or HALLUCINATION_DETECTED; it reports VALID
    exactly when it lists no finding, and exactly when the confidence
    equals 1; it lists one finding of severity HIGH per flagged pair. *)
Theorem detect_report (sources : list string) (generated_text : string) :
  ∃ self' result report,
    verify TruthVerifier_init sources generated_text = Return (self', result) ∧
    detect sources generated_text = Return report ∧
    (status report = "VALID" ∨ status report = "HALLUCINATION_DETECTED") ∧
    (status report = "VALID" ↔ hallucinations report = []) ∧
    (status report = "VALID" ↔ (report_confidence report == 1)%Q) ∧
    length (hallucinations report) = length (hallucinated_edges result) ∧
    (∀ f, f ∈ hallucinations report →
          severity f = "HIGH" ∧ type_ f = "topological_hallucination").
Proof.
  destruct (verify_result_facts TruthVerifier_init sources generated_text)
    as (self' & result & Hv & _ & _ & Hvalid & _ & _ & Hconf).
  destruct (detect_spec sources generated_text) as (self1 & result1 & Hv1 & Hd).
  rewrite Hv in Hv1. injection Hv1 as <- <-.
  eexists self', result, _. split; [exact Hv|]. split; [exact Hd|]. simpl.
  assert (Hst : (if is_valid result then "VALID" else "HALLUCINATION_DETECTED") = "VALID"
                ↔ is_valid result = true) by (by destruct (is_valid result)).
  split_and!.
  - destruct (is_valid result); auto.
  - rewrite Hst, Hvalid. split; [by intros ->|]. by intros ?%fmap_nil_inv.
  - by rewrite Hst, Hvalid, Hconf.
  - by rewrite length_map.
  - intros f (p & -> & _)%list_elem_of_fmap. done.
Qed.

(** ** The isomorphism check without the lattices or the context *)

Lemma hallucinated_loop_no_context (gt_rel : gset (string * string))
    (ans : list (string * string)) (acc : list (string * string)) :
  hallucinated_loop gt_rel None ans acc
  = if decide (Forall (λ p, p ∈ gt_rel) ans) then Return acc else Raise AttributeError.
Proof.
  induction ans as [|[a b] ans IH]; cbn [hallucinated_loop].
  - rewrite decide_True; [done|]. constructor.
  - destruct (decide ((a, b) ∉ gt_rel)) as [Hn|Hn].
    + rewrite decide_False; [done|]. by intros [? _]%Forall_cons.
    + apply dec_stable in Hn. rewrite IH.
      destruct (decide (Forall (λ p, p ∈ gt_rel) ans)) as [Hall|Hall].
      * rewrite decide_True; [done|]. by constructor.
      * rewrite decide_False; [done|]. by intros [_ ?]%Forall_cons.
Qed.

(** X20. Called before the lattices are built, [check_topological_isomorphism]
    returns the error result, invalid with confidence 0.  With both lattices
    but no ground-truth context, it raises [AttributeError] as soon as a
    relationship of the answer is not one of the ground truth, and returns a
    valid result otherwise. *)
Theorem check_topological_isomorphism_unbuilt (self : TruthVerifier) :
  (ground_truth_lattice self = None ∨ answer_lattice self = None →
   check_topological_isomorphism self
   = Return {| is_valid := false; error := Some "Lattices not built";
               hallucinated_edges := []; confidence := 0%Q;
               ground_truth_concepts := None; answer_concepts := None;
               ground_truth_relationships := None; answer_relationships := None |}) ∧
  (∀ gt ans,
     ground_truth_lattice self = Some gt → answer_lattice self = Some ans →
     ground_truth_context self = None →
     if decide (extract_relationships ans ⊆ extract_relationships gt)
     then ∃ result, check_topological_isomorphism self = Return result ∧
                    is_valid result = true ∧ error result = None ∧
                    hallucinated_edges result = []
     else check_topological_isomorphism self = Raise AttributeError).
Proof.
  split.
  - unfold check_topological_isomorphism.
    intros [-> | ->]; [done|]. by destruct (ground_truth_lattice self).
  - intros gt ans Hgt Hans Hctx. unfold check_topological_isomorphism.
    rewrite Hgt, Hans, Hctx, hallucinated_loop_no_context.
    destruct (decide (extract_relationships ans ⊆ extract_relationships gt)) as [Hs|Hs].
    + rewrite decide_True; [|apply Forall_forall; intros p Hp%elem_of_elements; auto].
      eexists. split; [done|]. done.
    + rewrite decide_False; [done|]. intros Hall. apply Hs. intros p Hp.
      rewrite Forall_forall in Hall. apply Hall. by apply elem_of_elements.
Qed.

(** ** text_to_context *)

Lemma elem_of_incidence_fold (sw : list (string * gset string))
    (inc : gset (string * string)) (p : string * string) :
  p ∈ foldl (λ inc sw,
               foldl (λ inc word, inc ∪ {[ (sw.1, word) ]}) inc (elements sw.2))
            inc sw ↔
  p ∈ inc ∨ ∃ ws, (p.1, ws) ∈ sw ∧ p.2 ∈ ws.
Proof.
  assert (Hinner : ∀ (o : string) (l : list string) (inc : gset (string * string)),
    p ∈ foldl (λ inc word, inc ∪ {[ (o, word) ]}) inc l ↔
    p ∈ inc ∨ (p.1 = o ∧ p.2 ∈ l)).
  { intros o l. induction l as [|w l IH]; intros inc'; simpl.
    - split; [auto|]. intros [?|[_ ?%elem_of_nil]]; done.
    - rewrite IH, elem_of_union, elem_of_singleton, elem_of_cons.
      destruct p as [p1 p2]. simpl. naive_solver. }
  revert inc. induction sw as [|[o ws] sw IH]; intros inc; simpl.
  - split; [auto|]. intros [?|(ws & ?%elem_of_nil & _)]; done.
  - rewrite IH, Hinner. setoid_rewrite elem_of_cons. setoid_rewrite elem_of_elements.
    split.
    + intros [[?|[<- ?]]|(ws' & ? & ?)]; [by left| |].
      * right. exists ws. split; [by left|done].
      * right. exists ws'. split; [by right|done].
    + intros [?|(ws' & [[= <- <-]|?] & ?)]; [by left; left|by left; right|].
      right. by exists ws'.
Qed.

Lemma elem_of_sentence_words (ss : list (list Ascii.ascii)) (o : string)
    (ws : gset string) :
  (o, ws) ∈ sentence_words_of ss ↔
  ∃ i s, ss !! i = Some s ∧ o = "sent_" +:+ pretty i ∧
         ws = list_to_set (findall_words (map lower_char s) []).
Proof.
  unfold sentence_words_of. rewrite elem_of_lookup_imap. split.
  - intros (i & s & [= -> ->] & Hs). by exists i, s.
  - intros (i & s & Hs & -> & ->). by exists i, s.
Qed.

(** The three sets of the context of a text, in terms of its sentences. *)
Lemma text_to_context_fields (text : string) :
  let sw := sentence_words_of (sentences_of text) in
  text_to_context text
  = FormalContext_init (list_to_set sw.*1) (⋃ sw.*2)
      (foldl (λ inc sw,
                foldl (λ inc word, inc ∪ {[ (sw.1, word) ]}) inc (elements sw.2))
             ∅ sw).
Proof. reflexivity. Qed.

Lemma text_to_context_facts (text : string) :
  let ctx := text_to_context text in
  (∀ o, o ∈ objects ctx ↔
        ∃ i, (i < length (sentences_of text))%nat ∧ o = "sent_" +:+ pretty i) ∧
  (∀ a, a ∈ attributes ctx ↔
        ∃ s, s ∈ sentences_of text ∧ a ∈ findall_words (map lower_char s) []) ∧
  (∀ o a, (o, a) ∈ incidence ctx ↔
          ∃ i s, sentences_of text !! i = Some s ∧ o = "sent_" +:+ pretty i ∧
                 a ∈ findall_words (map lower_char s) []).
Proof.
  cbv zeta. rewrite text_to_context_fields. cbv zeta. simpl.
  set (ss := sentences_of text). split_and!.
  - intros o. rewrite elem_of_list_to_set, list_elem_of_fmap. split.
    + intros ([o' ws] & -> & (i & s & Hs & -> & _)%elem_of_sentence_words).
      exists i. split; [by eapply lookup_lt_Some|done].
    + intros (i & Hi & ->). destruct (lookup_lt_is_Some_2 ss i Hi) as [s Hs].
      exists ("sent_" +:+ pretty i, list_to_set (findall_words (map lower_char s) [])).
      split; [done|]. apply elem_of_sentence_words. by exists i, s.
  - intros a. rewrite elem_of_union_list. split.
    + intros (X & ([o ws] & -> & (i & s & Hs & _ & ->)%elem_of_sentence_words)%list_elem_of_fmap
                & Ha).
      simpl in Ha. apply elem_of_list_to_set in Ha. exists s. split; [|done].
      by eapply list_elem_of_lookup_2.
    + intros (s & [i Hs]%list_elem_of_lookup_1 & Ha).
      exists (list_to_set (findall_words (map lower_char s) [])). split.
      * apply list_elem_of_fmap.
        exists ("sent_" +:+ pretty i, list_to_set (findall_words (map lower_char s) [])).
        split; [done|]. apply elem_of_sentence_words. by exists i, s.
      * by apply elem_of_list_to_set.
  - intros o a. rewrite elem_of_incidence_fold, elem_of_empty. simpl. split.
    + intros [[]|(ws & (i & s & Hs & -> & ->)%elem_of_sentence_words & Ha)].
      apply elem_of_list_to_set in Ha. by exists i, s.
    + intros (i & s & Hs & -> & Ha). right.
      exists (list_to_set (findall_words (map lower_char s) [])). split.
      * apply elem_of_sentence_words. by exists i, s.
      * by apply elem_of_list_to_set.
Qed.

(** X21. The context of a text has one object per kept sentence, named
    [sent_0], [sent_1], ...; every incidence pair joins a declared object
    and a declared attribute, so that [FormalContext] drops none; and every
    attribute occurs in at least one sentence. *)
Theorem text_to_context_well_formed (text : string) :
  let ctx := text_to_context text in
  (∀ o, o ∈ objects ctx ↔
        ∃ i, (i < length (sentences_of text))%nat ∧ o = "sent_" +:+ pretty i) ∧
  size (objects ctx) = length (sentences_of text) ∧
  (∀ o a, (o, a) ∈ incidence ctx → o ∈ objects ctx ∧ a ∈ attributes ctx) ∧
  (∀ o a, (o, a) ∈ incidence ctx ↔ o ∈ get_objects ctx a) ∧
  (∀ a, a ∈ attributes ctx → ∃ o, (o, a) ∈ incidence ctx).
Proof.
  cbv zeta. destruct (text_to_context_facts text) as (Hobj & Hattr & Hinc).
  assert (Hwf : ∀ o a, (o, a) ∈ incidence (text_to_context text) →
                       o ∈ objects (text_to_context text) ∧
                       a ∈ attributes (text_to_context text)).
  { intros o a (i & s & Hs & -> & Ha)%Hinc. split.
    - apply Hobj. exists i. split; [by eapply lookup_lt_Some|done].
    - apply Hattr. exists s. split; [by eapply list_elem_of_lookup_2|done]. }
  split_and!; [done| |done| |].
  - rewrite text_to_context_fields. cbv zeta. simpl.
    unfold sentence_words_of. rewrite fmap_imap.
    rewrite (imap_ext _ (λ j _, "sent_" +:+ pretty j)) by done.
    rewrite imap_seq_0, size_list_to_set, length_fmap, length_seq; [done|].
    apply NoDup_fmap_2; [|apply NoDup_seq].
    intros i j Hij. apply (inj (String.app "sent_")) in Hij. by apply (inj pretty) in Hij.
  - intros o a. split.
    + intros Hin. destruct (Hwf o a Hin) as [Ho Ha].
      destruct (text_to_context_constructed text) as (objs & attrs & inc & Heq).
      rewrite Heq in *. apply elem_of_get_objects. simpl in *. done.
    + destruct (text_to_context_constructed text) as (objs & attrs & inc & Heq).
      rewrite Heq. intros (_ & _ & ?)%elem_of_get_objects. done.
  - intros a (s & [i Hs]%list_elem_of_lookup_1 & Ha)%Hattr.
    exists ("sent_" +:+ pretty i). apply Hinc. by exists i, s.
Qed.












Lemma closure_empty_single_sentence (text : string) :
  (length (sentences_of text) ≤ 1)%nat →
  closure (text_to_context text) ∅ = attributes (text_to_context text).
Proof.
  intros Hlen. destruct (text_to_context_facts text) as (Hobj & Hattr & Hinc).
  destruct (text_to_context_constructed text) as (objs & attrs & inc & Heq).
  rewrite Heq in *. simpl in *. apply set_eq. intros a. rewrite elem_of_closure.
  split; [tauto|]. intros Ha. split; [done|].
  intros o (j & Hj & ->)%Hobj _.
  apply Hattr in Ha as (s & [i Hs]%list_elem_of_lookup_1 & Ha).
  apply Hinc. exists i, s. split_and!; [done| |done].
  pose proof (lookup_lt_Some _ _ _ Hs). do 2 f_equal. lia.
Qed.

(** X24. An answer that makes at most one sentence, such as the empty
    answer or any answer without an inner full stop, question mark or
    exclamation mark, is never flagged: the result is valid, the confidence
    equals 1 and [detect] reports VALID, whatever the sources say. *)
Theorem verify_single_sentence_answer (self : TruthVerifier) (citations : list string)
    (answer : string) (H : (length (sentences_of answer) ≤ 1)%nat) :
  ∃ self' result report,
    verify self citations answer = Return (self', result) ∧
    hallucinated_edges result = [] ∧ is_valid result = true ∧
    (confidence result == 1)%Q ∧
    detect citations answer = Return report ∧
    status report = "VALID" ∧ hallucinations report = [].
Proof.
  apply verify_valid_of_contexts. right. by apply closure_empty_single_sentence.
Qed.

Lemma verify_single_sentence_answer_witness :
  let citations := ["The sky is blue."; "Clouds are white."] in
  let answer := "The sky is blue and has white clouds." in
  (length (sentences_of answer) ≤ 1)%nat ∧
  ∃ self' result report,
    verify TruthVerifier_init citations answer = Return (self', result) ∧
    hallucinated_edges result = [] ∧ is_valid result = true ∧
    (confidence result == 1)%Q ∧
    detect citations answer = Return report ∧
    status report = "VALID" ∧ hallucinations report = [].
Proof.
  intros citations answer.
  assert (H : (length (sentences_of answer) ≤ 1)%nat) by by_evaluation.
  split; [exact H|].
  exact (verify_single_sentence_answer TruthVerifier_init citations answer H).
Defined.
